(** * Wireless sensor network routing simulator (app.py)

    A shallow embedding of the simulation engine of [app.py]: the node
    record with its energy-debit operation, the four routing rounds
    (Direct, LEACH, PEGASIS, TEEN) and the round driver that accumulates
    the metric series.

    Modelling choices.
    - Python floats are read as exact rationals ([Q]); integers as [Z];
      counts of list elements as [nat].
    - A node is a Python dict mutated in place.  The node collection is a
      store ([list node]); LEACH and PEGASIS keep further lists of
      references to the same dicts ([alive_nodes], [cluster_heads]), which
      are lists of positions in the store, so that a debit made through one
      reference is seen through every other one.
    - [math.dist] is a library function: it is an operation of the class
      [Geometry], with the two facts about it that the development uses.
    - The pseudo-random generator is an explicit input: the draws behind
      [random.sample] and [random.uniform] are functions from the number of
      the draw to its value. *)

From Stdlib Require Import List Bool Arith ZArith QArith Lia Lqa Permutation Sorted.
Import ListNotations.

Open Scope Q_scope.

(** ** Data model *)

Definition position : Type := (Z * Z)%type.

Definition edge : Type := (position * position)%type.

Record node : Type := mkNode {
  id : Z;
  pos : position;
  energy : Q;
  alive : bool
}.

Definition WIDTH : Z := 100.
Definition HEIGHT : Z := 100.
Definition INITIAL_ENERGY : Q := 1.
Definition TX_COST : Q := 0.02.
Definition RX_COST : Q := 0.01.
Definition BS_POS : position := (50, 115)%Z.

(** [math.dist]: a non-negative number, zero between a point and itself. *)
Class Geometry : Type := {
  distance : position -> position -> Q;
  distance_nonneg : forall a b, 0 <= distance a b;
  distance_same : forall a, distance a a == 0
}.

(** [use_energy(node, amount)] *)
Definition use_energy (n : node) (amount : Q) : node :=
  if alive n then
    let e := energy n - amount in
    mkNode (id n) (pos n) e (if Qle_bool e 0 then false else true)
  else n.

(** The store: the Python list [nodes].  A reference to a node is its
    position in the store.  References are only ever produced by
    enumerating the store, so the placeholder of [get] is never read. *)
Definition store : Type := list node.

Definition no_node : node := mkNode 0 (0, 0)%Z 0 false.

Definition get (s : store) (i : nat) : node := nth i s no_node.

Fixpoint update_at (s : store) (i : nat) (f : node -> node) : store :=
  match s, i with
  | [], _ => []
  | n :: rest, O => f n :: rest
  | n :: rest, S j => n :: update_at rest j f
  end.

(** [use_energy(r, amount)] through a reference [r]. *)
Definition use_energy_at (s : store) (i : nat) (amount : Q) : store :=
  update_at s i (fun n => use_energy n amount).

(** [create_nodes(n)], the two [random.randint] draws of node [i] being
    [draw (2 * i)] and [draw (2 * i + 1)]. *)
Definition randint (lo hi : Z) (r : nat) : Z :=
  (lo + Z.of_nat r mod (hi - lo + 1))%Z.

Definition create_nodes (draw : nat -> nat) (n : nat) : store :=
  map (fun i : nat =>
         mkNode (Z.of_nat i)
                (randint 0 WIDTH (draw (2 * i)%nat),
                 randint 0 HEIGHT (draw (2 * i + 1)%nat))
                INITIAL_ENERGY true)
      (seq 0 n).

(** Equality of two node dicts ([==] on dicts compares every entry). *)
Definition node_eqb (a b : node) : bool :=
  Z.eqb (id a) (id b)
  && (Z.eqb (fst (pos a)) (fst (pos b)) && Z.eqb (snd (pos a)) (snd (pos b)))
  && Qeq_bool (energy a) (energy b)
  && Bool.eqb (alive a) (alive b).

(** [[n for n in nodes if n["alive"]]], as references. *)
Definition alive_refs (s : store) : list nat :=
  filter (fun i => alive (get s i)) (seq 0 (length s)).

(** [random.sample(population, k)]: [k] draws without replacement; the
    [i]-th draw picks one of the elements that are left. *)
Fixpoint remove_nth {A : Type} (j : nat) (l : list A) : list A :=
  match l, j with
  | [], _ => []
  | _ :: rest, O => rest
  | x :: rest, S j' => x :: remove_nth j' rest
  end.

Fixpoint sample {A : Type} (draw : nat -> nat) (i : nat)
         (pool : list A) (k : nat) : list A :=
  match k with
  | O => []
  | S k' =>
      let j := (draw i mod length pool)%nat in
      match nth_error pool j with
      | Some x => x :: sample draw (S i) (remove_nth j pool) k'
      | None => []
      end
  end.

(** [min(xs, key=...)]: the first minimal element. *)
Fixpoint min_by {A : Type} (key : A -> Q) (best : A) (xs : list A) : A :=
  match xs with
  | [] => best
  | x :: rest =>
      min_by key (if Qle_bool (key best) (key x) then best else x) rest
  end.

(** [max(a, b)] of Python: [a] unless [b] is greater. *)
Definition max2 (a b : Q) : Q := if Qle_bool b a then a else b.

(** The result of one round: [(nodes, paths, delivered)]. *)
Definition outcome : Type := (store * list edge * Z)%type.

Definition nodes_of (o : outcome) : store := fst (fst o).
Definition paths_of (o : outcome) : list edge := snd (fst o).
Definition delivered_of (o : outcome) : Z := snd o.

Section Routing.

Context {G : Geometry}.

(** *** Direct *)

Fixpoint direct_loop (todo : list node) (packets : Z)
         (paths : list edge) (delivered : Z) : outcome :=
  match todo with
  | [] => ([], paths, delivered)
  | n :: rest =>
      if negb (alive n) then
        let '(ns, p, d) := direct_loop rest packets paths delivered in
        (n :: ns, p, d)
      else
        let d := distance (pos n) BS_POS in
        let n' := use_energy n (TX_COST * (d / 50)) in
        if alive n' then
          let '(ns, p, d) :=
            direct_loop rest packets (paths ++ [(pos n', BS_POS)])
                        (delivered + packets)%Z in
          (n' :: ns, p, d)
        else
          let '(ns, p, d) := direct_loop rest packets paths delivered in
          (n' :: ns, p, d)
  end.

Definition direct_routing (nodes : store) (packets : Z) : outcome :=
  direct_loop nodes packets [] 0%Z.

(** *** LEACH *)

Definition num_ch (alive_nodes : list nat) : nat :=
  Nat.max 1 (length alive_nodes / 10).

Definition cluster_heads_of (draw : nat -> nat) (alive_nodes : list nat)
  : list nat :=
  sample draw 0 alive_nodes (num_ch alive_nodes).

(** [n in cluster_heads]: some head dict equals the dict of [n]. *)
Definition in_heads (s : store) (cluster_heads : list nat) (i : nat) : bool :=
  existsb (fun c => node_eqb (get s c) (get s i)) cluster_heads.

(** [min(cluster_heads, key=lambda c: distance(c["pos"], n["pos"]))];
    [cluster_heads] holds at least one head whenever the loop runs. *)
Definition nearest_head (s : store) (cluster_heads : list nat) (i : nat) : nat :=
  match cluster_heads with
  | [] => i
  | c :: cs =>
      min_by (fun c => distance (pos (get s c)) (pos (get s i))) c cs
  end.

Fixpoint leach_loop (cluster_heads : list nat) (packets : Z)
         (todo : list nat) (s : store)
         (paths : list edge) (delivered : Z) : outcome :=
  match todo with
  | [] => (s, paths, delivered)
  | i :: rest =>
      if in_heads s cluster_heads i then
        let d := distance (pos (get s i)) BS_POS in
        let s1 := use_energy_at s i (TX_COST * (d / 60)) in
        leach_loop cluster_heads packets rest s1
                   (paths ++ [(pos (get s1 i), BS_POS)])
                   (delivered + packets)%Z
      else
        let ch := nearest_head s cluster_heads i in
        let d := distance (pos (get s i)) (pos (get s ch)) in
        let s1 := use_energy_at s i (TX_COST * (d / 60)) in
        let s2 := use_energy_at s1 ch (RX_COST * 0.4) in
        leach_loop cluster_heads packets rest s2
                   (paths ++ [(pos (get s2 i), pos (get s2 ch))])
                   delivered
  end.

Definition leach (draw : nat -> nat) (nodes : store) (packets : Z) : outcome :=
  let alive_nodes := alive_refs nodes in
  match alive_nodes with
  | [] => (nodes, [], 0%Z)
  | _ :: _ =>
      let cluster_heads := cluster_heads_of draw alive_nodes in
      leach_loop cluster_heads packets alive_nodes nodes [] 0%Z
  end.

(** *** PEGASIS *)

(** [sorted(..., key=lambda x: x["pos"][0])]: a stable sort. *)
Fixpoint insert_by (key : nat -> Z) (x : nat) (l : list nat) : list nat :=
  match l with
  | [] => [x]
  | y :: rest =>
      if (key x <=? key y)%Z then x :: y :: rest
      else y :: insert_by key x rest
  end.

Definition sorted_by (key : nat -> Z) (l : list nat) : list nat :=
  fold_right (insert_by key) [] l.

Definition chain_of (nodes : store) : list nat :=
  sorted_by (fun i => fst (pos (get nodes i))) (alive_refs nodes).

(** The loop over [range(len(alive_nodes) - 1)]: [a] is the head of the
    remaining chain and [b] the node after it. *)
Fixpoint pegasis_loop (chain : list nat) (s : store) (paths : list edge)
  : store * list edge :=
  match chain with
  | a :: ((b :: _) as rest) =>
      let d := distance (pos (get s a)) (pos (get s b)) in
      let s1 := use_energy_at s a (TX_COST * (d / 70)) in
      let s2 := use_energy_at s1 b (RX_COST * 0.4) in
      pegasis_loop rest s2 (paths ++ [(pos (get s2 a), pos (get s2 b))])
  | _ => (s, paths)
  end.

Definition pegasis (nodes : store) (packets : Z) : outcome :=
  let alive_nodes := chain_of nodes in
  let '(s, paths) := pegasis_loop alive_nodes nodes [] in
  match alive_nodes with
  | [] => (s, paths, 0%Z)
  | first :: others =>
      let last := List.last alive_nodes first in
      let d := distance (pos (get s last)) BS_POS in
      let s1 := use_energy_at s last (TX_COST * (d / 60)) in
      (s1, paths ++ [(pos (get s1 last), BS_POS)], (0 + packets)%Z)
  end.

(** *** TEEN *)

(** The condition under which a node transmits. *)
Definition teen_triggers (sensed hard_th soft_th : Q) : bool :=
  Qle_bool hard_th sensed && Qle_bool 0 (sensed - soft_th).

(** [uniform k] is the [k]-th value of [random.uniform(0, 100)] drawn in
    the round; only alive nodes draw. *)
Fixpoint teen_loop (todo : list node) (packets : Z) (hard_th soft_th : Q)
         (uniform : nat -> Q) (k : nat)
         (paths : list edge) (delivered : Z) : outcome :=
  match todo with
  | [] => ([], paths, delivered)
  | n :: rest =>
      if negb (alive n) then
        let '(ns, p, d) :=
          teen_loop rest packets hard_th soft_th uniform k paths delivered in
        (n :: ns, p, d)
      else
        let sensed := uniform k in
        if teen_triggers sensed hard_th soft_th then
          let d := distance (pos n) BS_POS in
          let n' := use_energy n (TX_COST * (d / 55)) in
          if alive n' then
            let '(ns, p, d) :=
              teen_loop rest packets hard_th soft_th uniform (S k)
                        (paths ++ [(pos n', BS_POS)]) (delivered + packets)%Z in
            (n' :: ns, p, d)
          else
            let '(ns, p, d) :=
              teen_loop rest packets hard_th soft_th uniform (S k)
                        paths delivered in
            (n' :: ns, p, d)
        else
          let '(ns, p, d) :=
            teen_loop rest packets hard_th soft_th uniform (S k)
                      paths delivered in
          (n :: ns, p, d)
  end.

Definition teen (uniform : nat -> Q) (nodes : store) (packets : Z)
           (hard_th soft_th : Q) : outcome :=
  teen_loop nodes packets hard_th soft_th uniform 0 [] 0%Z.

(** *** Round driver (the "Single Protocol" loop) *)

Inductive protocol : Type := Direct | LEACH | PEGASIS | TEEN.

(** The random draws of one round. *)
Record randomness : Type := mkRandomness {
  rand_index : nat -> nat;
  rand_uniform : nat -> Q
}.

Definition run_round (proto : protocol) (rnd : randomness) (nodes : store)
           (packets : Z) (hard soft : Q) : outcome :=
  match proto with
  | Direct => direct_routing nodes packets
  | LEACH => leach (rand_index rnd) nodes packets
  | PEGASIS => pegasis nodes packets
  | TEEN => teen (rand_uniform rnd) nodes packets hard soft
  end.

Definition dead_count (nodes : store) : nat :=
  length (filter (fun n => negb (alive n)) nodes).

Definition total_residual_energy (nodes : store) : Q :=
  fold_left (fun acc n => acc + max2 (energy n) 0) nodes 0.

Record simulation : Type := mkSimulation {
  sim_nodes : store;
  sim_paths : list edge;
  dead_history : list nat;
  energy_history : list Q;
  delivered_total : Z
}.

Definition sim_step (proto : protocol) (rnd : randomness) (packets : Z)
           (hard soft : Q) (st : simulation) : simulation :=
  let '(nodes, paths, delivered) :=
    run_round proto rnd (sim_nodes st) packets hard soft in
  mkSimulation nodes paths
               (dead_history st ++ [dead_count nodes])
               (energy_history st ++ [total_residual_energy nodes])
               (delivered_total st + delivered)%Z.

(** [for r in range(rounds)], from round [r] on. *)
Fixpoint sim_loop (proto : protocol) (rng : nat -> randomness) (packets : Z)
         (hard soft : Q) (r : nat) (rounds : nat) (st : simulation)
  : simulation :=
  match rounds with
  | O => st
  | S rounds' =>
      sim_loop proto rng packets hard soft (S r) rounds'
               (sim_step proto (rng r) packets hard soft st)
  end.

Definition run_simulation (proto : protocol) (rng : nat -> randomness)
           (nodes : store) (rounds : nat) (packets : Z) (hard soft : Q)
  : simulation :=
  sim_loop proto rng packets hard soft 0 rounds
           (mkSimulation nodes [] [] [] 0%Z).

(** The amount a node pays for a transmission to the base station. *)
Definition tx_to_base (divisor : Q) (n : node) : Q :=
  TX_COST * (distance (pos n) BS_POS / divisor).

(** A node's [alive] flag after its own transmission debit. *)
Definition survives_own_debit (divisor : Q) (n : node) : bool :=
  alive (use_energy n (tx_to_base divisor n)).

End Routing.

(** ** A concrete geometry

    Node coordinates are integers.  [grid_distance] is the Euclidean
    distance wherever that distance is an integer, and its integer part
    elsewhere. *)
Definition grid_distance (a b : position) : Q :=
  let dx := (fst a - fst b)%Z in
  let dy := (snd a - snd b)%Z in
  inject_Z (Z.sqrt (dx * dx + dy * dy)).

Definition grid : Geometry.
Proof.
  refine (Build_Geometry grid_distance _ _).
  - intros a b. unfold grid_distance.
    change 0 with (inject_Z 0). rewrite <- Zle_Qle. apply Z.sqrt_nonneg.
  - intros a. unfold grid_distance.
    rewrite !Z.sub_diag. reflexivity.
Defined.

(** ** Debits

    [debited n n']: the dict [n'] is what a sequence of calls of
    [use_energy] with non-negative amounts leaves of the dict [n]. *)
Inductive debited : node -> node -> Prop :=
| debited_refl : forall n, debited n n
| debited_step : forall n amount n',
    0 <= amount -> debited (use_energy n amount) n' -> debited n n'.

(** The same, for a whole store. *)
Definition debits (s s' : store) : Prop := Forall2 debited s s'.

(** A series that never goes up from one entry to the next. *)
Fixpoint nonincreasing (l : list Q) : Prop :=
  match l with
  | a :: ((b :: _) as rest) => b <= a /\ nonincreasing rest
  | _ => True
  end.

(** What the driver loop keeps true of the series it builds. *)
Definition energy_series_ok (st : simulation) : Prop :=
  nonincreasing (energy_history st)
  /\ Forall (fun e => total_residual_energy (sim_nodes st) <= e)
            (energy_history st).

(** The reference [i] is one of the references [cluster_heads]. *)
Definition is_head (cluster_heads : list nat) (i : nat) : bool :=
  existsb (Nat.eqb i) cluster_heads.

(** The number of alive nodes of a store. *)
Definition alive_count (nodes : store) : nat := length (filter alive nodes).

(** The number of the draw of the node at place [i]: one draw for each
    alive node before it. *)
Definition draw_index (nodes : store) (i : nat) : nat :=
  length (filter alive (firstn i nodes)).

(** The node at place [i] is alive and its sensed value passes the test. *)
Definition teen_transmits (uniform : nat -> Q) (hard soft : Q)
           (nodes : store) (i : nat) : bool :=
  alive (get nodes i)
  && teen_triggers (uniform (draw_index nodes i)) hard soft.

(** A run of Direct whose only node sits on the base station, alive and
    with energy left. *)
Definition at_base (st : simulation) : Prop :=
  exists n, sim_nodes st = [n]
            /\ pos n = BS_POS /\ alive n = true /\ 0 < energy n.

(** ** The "Compare Protocols" loop *)

Section Comparison.

Context {G : Geometry}.

(** The round of the comparison loop: Direct, LEACH, and PEGASIS in the
    [else] branch. *)
Definition compare_round (proto : protocol) (rnd : randomness)
           (nodes : store) (packets : Z) : outcome :=
  match proto with
  | Direct => direct_routing nodes packets
  | LEACH => leach (rand_index rnd) nodes packets
  | _ => pegasis nodes packets
  end.

(** [for _ in range(rounds)], from round [r] on. *)
Fixpoint compare_loop (proto : protocol) (rng : nat -> randomness)
         (packets : Z) (r rounds : nat) (nodes : store) (delivered : Z)
  : store * Z :=
  match rounds with
  | O => (nodes, delivered)
  | S rounds' =>
      let '(nodes', _, d) := compare_round proto (rng r) nodes packets in
      compare_loop proto rng packets (S r) rounds' nodes' (delivered + d)%Z
  end.

(** One entry of [results]: [{"alive": ..., "delivered": ...}]. *)
Record comparison : Type := mkComparison {
  cmp_alive : nat;
  cmp_delivered : Z
}.

Definition compare_protocol (proto : protocol) (rng : nat -> randomness)
           (nodes : store) (rounds : nat) (packets : Z) : comparison :=
  let '(nodes', delivered) := compare_loop proto rng packets 0 rounds nodes 0%Z in
  mkComparison (length (filter alive nodes')) delivered.

(** [protocols[:3]] *)
Definition compared_protocols : list protocol := [Direct; LEACH; PEGASIS].

(** The dict [results], in the order of its insertions.  Each protocol
    runs on nodes of its own, created from its own draws. *)
Definition run_comparison (draws : protocol -> nat -> nat)
           (rng : protocol -> nat -> randomness)
           (num_nodes rounds : nat) (packets : Z)
  : list (protocol * comparison) :=
  map (fun proto =>
         (proto,
          compare_protocol proto (rng proto)
                           (create_nodes (draws proto) num_nodes)
                           rounds packets))
      compared_protocols.

End Comparison.

(** ** Further vocabulary *)

(** A series that never goes down from one entry to the next. *)
Fixpoint nondecreasing (l : list nat) : Prop :=
  match l with
  | a :: ((b :: _) as rest) => (a <= b)%nat /\ nondecreasing rest
  | _ => True
  end.

(** A node is alive exactly when it has energy left. *)
Definition energy_consistent (n : node) : Prop :=
  alive n = negb (Qle_bool (energy n) 0).

(** The edges of a chain of positions that ends at the base station:
    from each position to the next one, and from the last one to the base
    station. *)
Definition chain_edges (ps : list position) : list edge :=
  combine ps (tl ps ++ [BS_POS]).

(** Each edge starts where the edge before it ends. *)
Fixpoint chained (paths : list edge) : Prop :=
  match paths with
  | e1 :: ((e2 :: _) as rest) => snd e1 = fst e2 /\ chained rest
  | _ => True
  end.

(** Two runs that differ in [packets] only: the one with [packets], the
    other with one packet per round. *)
Definition same_but_packets (packets : Z) (a b : simulation) : Prop :=
  sim_nodes a = sim_nodes b
  /\ sim_paths a = sim_paths b
  /\ dead_history a = dead_history b
  /\ energy_history a = energy_history b
  /\ delivered_total a = (packets * delivered_total b)%Z.

(** ** Facts about debits *)

Create HintDb wsn.
#[local] Hint Constructors debited : wsn.

Lemma use_energy_dead : forall n amount,
  alive n = false -> use_energy n amount = n.
Proof. intros n amount H. unfold use_energy. now rewrite H. Qed.

Lemma use_energy_id : forall n amount, id (use_energy n amount) = id n.
Proof. intros n amount. unfold use_energy. now destruct (alive n). Qed.

Lemma use_energy_pos : forall n amount, pos (use_energy n amount) = pos n.
Proof. intros n amount. unfold use_energy. now destruct (alive n). Qed.

Lemma use_energy_alive_mono : forall n amount,
  alive (use_energy n amount) = true -> alive n = true.
Proof.
  intros n amount. unfold use_energy.
  destruct (alive n) eqn:E; simpl; [reflexivity | now rewrite E].
Qed.

Lemma use_energy_energy_le : forall n amount,
  0 <= amount -> energy (use_energy n amount) <= energy n.
Proof.
  intros n amount H. unfold use_energy.
  destruct (alive n); simpl; lra.
Qed.

Lemma debited_one : forall n amount,
  0 <= amount -> debited n (use_energy n amount).
Proof. eauto with wsn. Qed.

Lemma debited_trans : forall a b c, debited a b -> debited b c -> debited a c.
Proof. induction 1; eauto with wsn. Qed.

Lemma debited_id : forall n n', debited n n' -> id n' = id n.
Proof.
  induction 1; [reflexivity|].
  now rewrite IHdebited, use_energy_id.
Qed.

Lemma debited_pos : forall n n', debited n n' -> pos n' = pos n.
Proof.
  induction 1; [reflexivity|].
  now rewrite IHdebited, use_energy_pos.
Qed.

Lemma debited_dead : forall n n',
  debited n n' -> alive n = false -> n' = n.
Proof.
  induction 1; intros Hd; [reflexivity|].
  rewrite (use_energy_dead _ _ Hd) in IHdebited. auto.
Qed.

Lemma debited_alive_mono : forall n n',
  debited n n' -> alive n = false -> alive n' = false.
Proof. intros n n' H Hd. now rewrite (debited_dead _ _ H Hd). Qed.

Lemma debited_energy_le : forall n n', debited n n' -> energy n' <= energy n.
Proof.
  induction 1; [lra|].
  pose proof (use_energy_energy_le n amount H). lra.
Qed.

Lemma debits_refl : forall s, debits s s.
Proof. induction s; constructor; auto with wsn. Qed.

Lemma debits_trans : forall a b c, debits a b -> debits b c -> debits a c.
Proof.
  intros a b c H. revert c.
  induction H; intros c Hc; inversion Hc; subst; constructor;
    eauto using debited_trans.
  now apply IHForall2.
Qed.

Lemma debits_use_energy_at : forall s i amount,
  0 <= amount -> debits s (use_energy_at s i amount).
Proof.
  unfold use_energy_at.
  induction s as [|n s IH]; intros [|i] amount H; simpl; constructor.
  - now apply debited_one.
  - apply debits_refl.
  - apply debited_refl.
  - now apply IH.
Qed.

Lemma debits_step : forall s0 s i amount,
  0 <= amount -> debits s0 s -> debits s0 (use_energy_at s i amount).
Proof.
  intros. eapply debits_trans; [eassumption|].
  now apply debits_use_energy_at.
Qed.

Lemma tx_amount_nonneg : forall d k, 0 <= d -> 0 < k -> 0 <= TX_COST * (d / k).
Proof.
  intros d k Hd Hk. apply Qmult_le_0_compat; [unfold TX_COST; lra|].
  apply Qle_shift_div_l; [assumption | lra].
Qed.

Lemma rx_amount_nonneg : 0 <= RX_COST * 0.4.
Proof. unfold RX_COST. lra. Qed.

(** ** Every round only debits *)

Section RoundFacts.

Context {G : Geometry}.

Lemma tx_to_base_nonneg : forall k n, 0 < k -> 0 <= tx_to_base k n.
Proof.
  intros k n Hk. apply tx_amount_nonneg; [apply distance_nonneg | assumption].
Qed.

Lemma direct_loop_nodes : forall todo packets paths delivered,
  nodes_of (direct_loop todo packets paths delivered)
  = map (fun n => use_energy n (tx_to_base 50 n)) todo.
Proof.
  induction todo as [|n rest IH]; intros packets paths delivered; simpl.
  - reflexivity.
  - destruct (alive n) eqn:Ha; simpl.
    + fold (tx_to_base 50 n).
      destruct (alive (use_energy n (tx_to_base 50 n))) eqn:Hs.
      * specialize (IH packets
                       (paths ++ [(pos (use_energy n (tx_to_base 50 n)), BS_POS)])
                       (delivered + packets)%Z).
        destruct (direct_loop rest _ _ _) as [[ns p] d].
        unfold nodes_of in *; simpl in *. now rewrite IH.
      * specialize (IH packets paths delivered).
        destruct (direct_loop rest _ _ _) as [[ns p] d].
        unfold nodes_of in *; simpl in *. now rewrite IH.
    + specialize (IH packets paths delivered).
      destruct (direct_loop rest _ _ _) as [[ns p] d].
      unfold nodes_of in *; simpl in *.
      now rewrite IH, (use_energy_dead _ _ Ha).
Qed.

Lemma debits_map_use_energy : forall (amount : node -> Q) s,
  (forall n, 0 <= amount n) ->
  debits s (map (fun n => use_energy n (amount n)) s).
Proof.
  intros amount s H. induction s; simpl; constructor; auto using debited_one.
Qed.

Lemma direct_routing_debits : forall nodes packets,
  debits nodes (nodes_of (direct_routing nodes packets)).
Proof.
  intros. unfold direct_routing. rewrite direct_loop_nodes.
  apply debits_map_use_energy. intros n. apply tx_to_base_nonneg. lra.
Qed.

Lemma teen_loop_debits : forall todo packets hard soft uniform k paths delivered,
  debits todo
         (nodes_of (teen_loop todo packets hard soft uniform k paths delivered)).
Proof.
  induction todo as [|n rest IH]; intros packets hard soft uniform k paths delivered;
    simpl.
  - constructor.
  - destruct (alive n) eqn:Ha; simpl.
    + destruct (teen_triggers (uniform k) hard soft).
      * fold (tx_to_base 55 n).
        destruct (alive (use_energy n (tx_to_base 55 n))).
        -- specialize (IH packets hard soft uniform (S k)
                          (paths ++ [(pos (use_energy n (tx_to_base 55 n)), BS_POS)])
                          (delivered + packets)%Z).
           destruct (teen_loop rest _ _ _ _ _ _ _) as [[ns p] d].
           constructor; [|exact IH].
           apply debited_one, tx_to_base_nonneg. lra.
        -- specialize (IH packets hard soft uniform (S k) paths delivered).
           destruct (teen_loop rest _ _ _ _ _ _ _) as [[ns p] d].
           constructor; [|exact IH].
           apply debited_one, tx_to_base_nonneg. lra.
      * specialize (IH packets hard soft uniform (S k) paths delivered).
        destruct (teen_loop rest _ _ _ _ _ _ _) as [[ns p] d].
        constructor; [apply debited_refl | exact IH].
    + specialize (IH packets hard soft uniform k paths delivered).
      destruct (teen_loop rest _ _ _ _ _ _ _) as [[ns p] d].
      constructor; [apply debited_refl | exact IH].
Qed.

Lemma leach_loop_debits : forall heads packets todo s0 s paths delivered,
  debits s0 s ->
  debits s0 (nodes_of (leach_loop heads packets todo s paths delivered)).
Proof.
  induction todo as [|i rest IH]; intros s0 s paths delivered H; simpl.
  - exact H.
  - destruct (in_heads s heads i).
    + apply IH, debits_step; [|exact H].
      apply tx_amount_nonneg; [apply distance_nonneg | lra].
    + apply IH, debits_step; [apply rx_amount_nonneg|].
      apply debits_step; [|exact H].
      apply tx_amount_nonneg; [apply distance_nonneg | lra].
Qed.

Lemma leach_debits : forall draw nodes packets,
  debits nodes (nodes_of (leach draw nodes packets)).
Proof.
  intros. unfold leach. destruct (alive_refs nodes) eqn:E.
  - apply debits_refl.
  - apply leach_loop_debits, debits_refl.
Qed.

Lemma pegasis_loop_debits : forall chain s0 s paths,
  debits s0 s -> debits s0 (fst (pegasis_loop chain s paths)).
Proof.
  induction chain as [|a rest IH]; intros s0 s paths H; simpl.
  - exact H.
  - destruct rest as [|b rest']; [exact H|].
    apply IH, debits_step; [apply rx_amount_nonneg|].
    apply debits_step; [|exact H].
    apply tx_amount_nonneg; [apply distance_nonneg | lra].
Qed.

Lemma pegasis_debits : forall nodes packets,
  debits nodes (nodes_of (pegasis nodes packets)).
Proof.
  intros. unfold pegasis.
  pose proof (pegasis_loop_debits (chain_of nodes) nodes nodes []
                                  (debits_refl nodes)) as H.
  destruct (pegasis_loop (chain_of nodes) nodes []) as [s paths].
  simpl in H. destruct (chain_of nodes); [exact H|].
  apply debits_step; [|exact H].
  apply tx_amount_nonneg; [apply distance_nonneg | lra].
Qed.

Lemma run_round_debits : forall proto rnd nodes packets hard soft,
  debits nodes (nodes_of (run_round proto rnd nodes packets hard soft)).
Proof.
  intros [] rnd nodes packets hard soft; simpl.
  - apply direct_routing_debits.
  - apply leach_debits.
  - apply pegasis_debits.
  - apply teen_loop_debits.
Qed.

Lemma sim_step_nodes : forall proto rnd packets hard soft st,
  sim_nodes (sim_step proto rnd packets hard soft st)
  = nodes_of (run_round proto rnd (sim_nodes st) packets hard soft).
Proof.
  intros. unfold sim_step.
  now destruct (run_round _ _ _ _ _ _) as [[ns p] d].
Qed.

Lemma sim_loop_debits : forall proto rng packets hard soft rounds r st,
  debits (sim_nodes st)
         (sim_nodes (sim_loop proto rng packets hard soft r rounds st)).
Proof.
  induction rounds as [|rounds IH]; intros r st; simpl.
  - apply debits_refl.
  - eapply debits_trans; [|apply IH].
    rewrite sim_step_nodes. apply run_round_debits.
Qed.

Lemma sim_loop_add : forall proto rng packets hard soft k j r st,
  sim_loop proto rng packets hard soft r (k + j) st
  = sim_loop proto rng packets hard soft (r + k) j
             (sim_loop proto rng packets hard soft r k st).
Proof.
  induction k as [|k IH]; intros j r st; simpl.
  - now rewrite Nat.add_0_r.
  - rewrite IH. now rewrite Nat.add_succ_r.
Qed.

End RoundFacts.

(** ** Rounds without alive nodes *)

Section NoAlive.

Context {G : Geometry}.

Lemma get_dead : forall s i,
  Forall (fun n => alive n = false) s -> alive (get s i) = false.
Proof.
  unfold get. induction s as [|n s IH]; intros [|i] H; simpl;
    try reflexivity; inversion H; subst; auto.
Qed.

Lemma filter_none : forall (A : Type) (f : A -> bool) (l : list A),
  (forall x, f x = false) -> filter f l = [].
Proof.
  intros A f l H. induction l as [|x l IH]; simpl; [reflexivity|].
  now rewrite H.
Qed.

Lemma alive_refs_dead : forall s,
  Forall (fun n => alive n = false) s -> alive_refs s = [].
Proof.
  intros s H. unfold alive_refs. apply filter_none.
  intros i. now apply get_dead.
Qed.

Lemma direct_loop_dead : forall todo packets paths delivered,
  Forall (fun n => alive n = false) todo ->
  direct_loop todo packets paths delivered = (todo, paths, delivered).
Proof.
  induction todo as [|n rest IH]; intros packets paths delivered H; simpl.
  - reflexivity.
  - inversion H as [|? ? Hn Hrest]; subst.
    rewrite Hn; simpl. now rewrite IH.
Qed.

Lemma teen_loop_dead : forall todo packets hard soft uniform k paths delivered,
  Forall (fun n => alive n = false) todo ->
  teen_loop todo packets hard soft uniform k paths delivered
  = (todo, paths, delivered).
Proof.
  induction todo as [|n rest IH];
    intros packets hard soft uniform k paths delivered H; simpl.
  - reflexivity.
  - inversion H as [|? ? Hn Hrest]; subst.
    rewrite Hn; simpl. now rewrite IH.
Qed.

End NoAlive.

(** ** The residual-energy series *)

Lemma max2_mono : forall a a', a' <= a -> max2 a' 0 <= max2 a 0.
Proof.
  intros a a' H. unfold max2.
  destruct (Qle_bool 0 a') eqn:E'; destruct (Qle_bool 0 a) eqn:E;
    try (apply Qle_bool_iff in E'); try (apply Qle_bool_iff in E); try lra.
  exfalso. assert (Hc : 0 <= a) by lra.
  apply Qle_bool_iff in Hc. congruence.
Qed.

Lemma residual_fold_mono : forall s s',
  debits s s' ->
  forall acc acc', acc' <= acc ->
  fold_left (fun acc n => acc + max2 (energy n) 0) s' acc'
  <= fold_left (fun acc n => acc + max2 (energy n) 0) s acc.
Proof.
  induction 1 as [|n n' s s' Hn Hs IH]; intros acc acc' Hacc; simpl.
  - exact Hacc.
  - apply IH.
    pose proof (max2_mono _ _ (debited_energy_le _ _ Hn)). lra.
Qed.

Lemma total_residual_energy_mono : forall s s',
  debits s s' -> total_residual_energy s' <= total_residual_energy s.
Proof.
  intros s s' H. unfold total_residual_energy.
  apply residual_fold_mono; [exact H | lra].
Qed.

Lemma nonincreasing_snoc : forall l x,
  nonincreasing l -> Forall (fun e => x <= e) l -> nonincreasing (l ++ [x]).
Proof.
  induction l as [|a l IH]; intros x Hl Hx; simpl.
  - exact I.
  - destruct l as [|b l'].
    + simpl. inversion Hx; subst. split; [assumption | exact I].
    + destruct Hl as [Hba Hl]. inversion Hx; subst.
      split; [exact Hba|]. apply IH; assumption.
Qed.

Section EnergySeries.

Context {G : Geometry}.

Lemma sim_step_energy_history : forall proto rnd packets hard soft st,
  energy_history (sim_step proto rnd packets hard soft st)
  = energy_history st
    ++ [total_residual_energy
          (sim_nodes (sim_step proto rnd packets hard soft st))].
Proof.
  intros. unfold sim_step.
  now destruct (run_round _ _ _ _ _ _) as [[ns p] d].
Qed.

Lemma sim_step_energy_series_ok : forall proto rnd packets hard soft st,
  energy_series_ok st ->
  energy_series_ok (sim_step proto rnd packets hard soft st).
Proof.
  intros proto rnd packets hard soft st [Hn Hf].
  assert (Hle : total_residual_energy
                  (sim_nodes (sim_step proto rnd packets hard soft st))
                <= total_residual_energy (sim_nodes st)).
  { apply total_residual_energy_mono. rewrite sim_step_nodes.
    apply run_round_debits. }
  assert (Hf' : Forall (fun e => total_residual_energy
                   (sim_nodes (sim_step proto rnd packets hard soft st)) <= e)
                   (energy_history st)).
  { eapply Forall_impl; [|exact Hf]. simpl. intros e He. lra. }
  unfold energy_series_ok. rewrite sim_step_energy_history. split.
  - now apply nonincreasing_snoc.
  - apply Forall_app. split; [exact Hf'|].
    constructor; [lra | constructor].
Qed.

Lemma sim_loop_energy_series_ok : forall proto rng packets hard soft rounds r st,
  energy_series_ok st ->
  energy_series_ok (sim_loop proto rng packets hard soft r rounds st).
Proof.
  induction rounds as [|rounds IH]; intros r st H; simpl.
  - exact H.
  - apply IH. now apply sim_step_energy_series_ok.
Qed.

Lemma sim_loop_energy_history_length :
  forall proto rng packets hard soft rounds r st,
  length (energy_history (sim_loop proto rng packets hard soft r rounds st))
  = (length (energy_history st) + rounds)%nat.
Proof.
  induction rounds as [|rounds IH]; intros r st; simpl.
  - now rewrite Nat.add_0_r.
  - rewrite IH, sim_step_energy_history, length_app. simpl. lia.
Qed.

Lemma sim_loop_succ : forall proto rng packets hard soft k r st,
  sim_loop proto rng packets hard soft r (S k) st
  = sim_step proto (rng (r + k)%nat) packets hard soft
             (sim_loop proto rng packets hard soft r k st).
Proof.
  intros. rewrite <- Nat.add_1_r, sim_loop_add. reflexivity.
Qed.

Lemma sim_loop_energy_history_prefix :
  forall proto rng packets hard soft rounds r st,
  exists later,
    energy_history (sim_loop proto rng packets hard soft r rounds st)
    = energy_history st ++ later.
Proof.
  induction rounds as [|rounds IH]; intros r st; simpl.
  - exists []. now rewrite app_nil_r.
  - destruct (IH (S r) (sim_step proto (rng r) packets hard soft st))
      as [later H].
    rewrite H, sim_step_energy_history, <- app_assoc. eauto.
Qed.

(** Entry [r] of the series is the total taken on the store that round
    [r] leaves. *)
Lemma energy_history_nth : forall proto rng nodes rounds packets hard soft r,
  (r < rounds)%nat ->
  nth_error
    (energy_history (run_simulation proto rng nodes rounds packets hard soft)) r
  = Some (total_residual_energy
            (sim_nodes (run_simulation proto rng nodes (S r) packets hard soft))).
Proof.
  intros proto rng nodes rounds packets hard soft r Hr.
  unfold run_simulation.
  replace rounds with (S r + (rounds - S r))%nat by lia.
  rewrite sim_loop_add.
  destruct (sim_loop_energy_history_prefix proto rng packets hard soft
              (rounds - S r) (0 + S r)
              (sim_loop proto rng packets hard soft 0 (S r)
                        (mkSimulation nodes [] [] [] 0%Z))) as [later H].
  rewrite H. clear H.
  rewrite sim_loop_succ, sim_step_energy_history, <- app_assoc.
  rewrite nth_error_app2;
    rewrite sim_loop_energy_history_length; simpl; [|lia].
  now rewrite Nat.sub_diag.
Qed.

End EnergySeries.

(** ** A node at the base station *)

Section AtBase.

Context {G : Geometry}.

Lemma tx_to_base_at_base : forall k n, pos n = BS_POS -> tx_to_base k n == 0.
Proof.
  intros k n H. unfold tx_to_base. rewrite H, distance_same.
  unfold Qdiv. ring.
Qed.

Lemma direct_routing_at_base : forall n packets,
  pos n = BS_POS -> alive n = true -> 0 < energy n ->
  exists n',
    direct_routing [n] packets = ([n'], [(BS_POS, BS_POS)], packets)
    /\ pos n' = BS_POS /\ alive n' = true /\ energy n' == energy n.
Proof.
  intros n packets Hp Ha He.
  pose proof (tx_to_base_at_base 50 n Hp) as Hc.
  unfold direct_routing; simpl. rewrite Ha; simpl.
  fold (tx_to_base 50 n).
  assert (Hs : use_energy n (tx_to_base 50 n)
               = mkNode (id n) (pos n) (energy n - tx_to_base 50 n) true).
  { unfold use_energy. rewrite Ha.
    destruct (Qle_bool (energy n - tx_to_base 50 n) 0) eqn:E;
      [|reflexivity].
    apply Qle_bool_iff in E. lra. }
  rewrite Hs; simpl. rewrite Hp.
  eexists. split; [reflexivity|]. simpl.
  split; [reflexivity|]. split; [reflexivity | lra].
Qed.

Lemma sim_step_at_base : forall rnd packets hard soft st,
  at_base st ->
  let st' := sim_step Direct rnd packets hard soft st in
  at_base st'
  /\ delivered_total st' = (delivered_total st + packets)%Z
  /\ dead_history st' = dead_history st ++ [0%nat].
Proof.
  intros rnd packets hard soft st (n & Hn & Hp & Ha & He) st'.
  subst st'. unfold sim_step; simpl. rewrite Hn.
  destruct (direct_routing_at_base n packets Hp Ha He)
    as (n' & Hr & Hp' & Ha' & He').
  rewrite Hr; simpl. repeat split.
  - exists n'. repeat split; auto. lra.
  - unfold dead_count; simpl. now rewrite Ha'.
Qed.

Lemma sim_loop_at_base : forall rng packets hard soft rounds r st,
  at_base st ->
  let st' := sim_loop Direct rng packets hard soft r rounds st in
  delivered_total st' = (delivered_total st + Z.of_nat rounds * packets)%Z
  /\ dead_history st' = dead_history st ++ repeat 0%nat rounds.
Proof.
  induction rounds as [|rounds IH]; intros r st H; cbn [sim_loop repeat].
  - split; [lia | now rewrite app_nil_r].
  - destruct (sim_step_at_base (rng r) packets hard soft st H)
      as (H' & Hd & Hh).
    destruct (IH (S r) _ H') as [IHd IHh].
    rewrite IHd, IHh, Hd, Hh. split; [lia|].
    now rewrite <- app_assoc.
Qed.

End AtBase.

(** ** TEEN: who transmits *)

Lemma teen_triggers_hard_zero : forall sensed soft,
  0 <= sensed -> teen_triggers sensed 0 soft = Qle_bool soft sensed.
Proof.
  intros sensed soft H. unfold teen_triggers.
  apply Qle_bool_iff in H. rewrite H. simpl.
  destruct (Qle_bool soft sensed) eqn:E.
  - apply Qle_bool_iff in E. apply Qle_bool_iff. lra.
  - destruct (Qle_bool 0 (sensed - soft)) eqn:E'; [|reflexivity].
    apply Qle_bool_iff in E'.
    assert (Hc : soft <= sensed) by lra.
    apply Qle_bool_iff in Hc. congruence.
Qed.

(** ** Lists: drawing without replacement, references *)

Lemma remove_nth_In : forall (A : Type) (l : list A) j x,
  In x (remove_nth j l) -> In x l.
Proof.
  induction l as [|y l IH]; intros [|j] x H; simpl in *; auto.
  destruct H as [H|H]; eauto.
Qed.

Lemma remove_nth_length : forall (A : Type) (l : list A) j,
  (j < length l)%nat -> S (length (remove_nth j l)) = length l.
Proof.
  induction l as [|y l IH]; intros [|j] H; simpl in *; try lia.
  rewrite IH; lia.
Qed.

Lemma remove_nth_NoDup : forall (A : Type) (l : list A) j,
  NoDup l -> NoDup (remove_nth j l).
Proof.
  induction l as [|y l IH]; intros [|j] H; simpl; auto;
    inversion H as [|? ? Hy Hl]; subst; auto.
  constructor; auto. intros Hin. eauto using remove_nth_In.
Qed.

Lemma remove_nth_not_In : forall (A : Type) (l : list A) j x,
  NoDup l -> nth_error l j = Some x -> ~ In x (remove_nth j l).
Proof.
  induction l as [|y l IH]; intros [|j] x Hnd Hx; simpl in *;
    try discriminate; inversion Hnd as [|? ? Hy Hl]; subst.
  - now inversion Hx; subst.
  - intros [H|H].
    + subst. apply nth_error_In in Hx. contradiction.
    + exact (IH j x Hl Hx H).
Qed.

Lemma sample_In : forall (A : Type) draw k i (pool : list A) x,
  In x (sample draw i pool k) -> In x pool.
Proof.
  induction k as [|k IH]; intros i pool x H; simpl in H; [contradiction|].
  destruct (nth_error pool (draw i mod length pool)) as [y|] eqn:E;
    [|contradiction].
  destruct H as [H|H].
  - subst. eauto using nth_error_In.
  - eauto using remove_nth_In.
Qed.

Lemma sample_NoDup : forall (A : Type) draw k i (pool : list A),
  NoDup pool -> NoDup (sample draw i pool k).
Proof.
  induction k as [|k IH]; intros i pool H; simpl; [constructor|].
  destruct (nth_error pool (draw i mod length pool)) as [y|] eqn:E;
    [|constructor].
  constructor.
  - intros Hin. apply sample_In in Hin.
    exact (remove_nth_not_In _ _ _ _ H E Hin).
  - apply IH. now apply remove_nth_NoDup.
Qed.

Lemma sample_length : forall (A : Type) draw k i (pool : list A),
  (k <= length pool)%nat -> length (sample draw i pool k) = k.
Proof.
  induction k as [|k IH]; intros i pool H; simpl; [reflexivity|].
  assert (Hj : (draw i mod length pool < length pool)%nat)
    by (apply Nat.mod_upper_bound; lia).
  destruct (nth_error pool (draw i mod length pool)) as [y|] eqn:E.
  - simpl. f_equal. apply IH.
    pose proof (remove_nth_length _ _ _ Hj). lia.
  - apply nth_error_None in E. lia.
Qed.

Lemma remove_nth_In_other : forall (A : Type) (l : list A) j x y,
  In y l -> nth_error l j = Some x -> y <> x -> In y (remove_nth j l).
Proof.
  induction l as [|z l IH]; intros [|j] x y Hy Hx Hne; simpl in *;
    try contradiction.
  - inversion Hx; subst. destruct Hy as [Hy|Hy]; [congruence | exact Hy].
  - destruct Hy as [Hy|Hy]; [now left | right; eauto].
Qed.

Lemma sample_ext : forall (A : Type) d1 d2 k i (pool : list A),
  (forall m, (i <= m)%nat -> d1 m = d2 m) ->
  sample d1 i pool k = sample d2 i pool k.
Proof.
  induction k as [|k IH]; intros i pool H; simpl; [reflexivity|].
  rewrite (H i) by lia.
  destruct (nth_error pool (d2 i mod length pool)); [|reflexivity].
  f_equal. apply IH. intros m Hm. apply H. lia.
Qed.

(** The model of [random.sample] leaves the choice open: every selection
    of distinct elements of the pool, in every order, is the sample of
    some sequence of draws. *)
Lemma sample_complete : forall (A : Type) (sel pool : list A) i,
  NoDup sel -> incl sel pool ->
  exists draw, sample draw i pool (length sel) = sel.
Proof.
  induction sel as [|x sel IH]; intros pool i Hnd Hincl.
  - exists (fun _ => 0%nat). reflexivity.
  - inversion Hnd as [|? ? Hx Hsel]; subst.
    destruct (In_nth_error pool x (Hincl x (or_introl eq_refl))) as [j Hj].
    assert (Hlt : (j < length pool)%nat)
      by (apply nth_error_Some; congruence).
    destruct (IH (remove_nth j pool) (S i) Hsel) as [draw' Hdraw'].
    { intros y Hy. apply remove_nth_In_other with (x := x); auto.
      - apply Hincl. now right.
      - intros E. subst. contradiction. }
    exists (fun m => if Nat.eqb m i then j else draw' m).
    cbn [length sample]. rewrite Nat.eqb_refl, (Nat.mod_small j) by exact Hlt.
    rewrite Hj. f_equal. rewrite <- Hdraw' at 2.
    apply sample_ext. intros m Hm.
    destruct (Nat.eqb m i) eqn:E; [|reflexivity].
    apply Nat.eqb_eq in E. lia.
Qed.

Lemma sample_singleton : forall (A : Type) draw i (x : A),
  sample draw i [x] 1 = [x].
Proof.
  intros A draw i x. cbn [sample length]. now rewrite Nat.mod_1_r.
Qed.

Lemma alive_refs_In : forall s i,
  In i (alive_refs s) <-> (i < length s)%nat /\ alive (get s i) = true.
Proof.
  intros s i. unfold alive_refs. rewrite filter_In, in_seq. intuition lia.
Qed.

Lemma alive_refs_NoDup : forall s, NoDup (alive_refs s).
Proof. intros s. apply NoDup_filter, seq_NoDup. Qed.

Lemma filter_seq_shift : forall (f : nat -> bool) len start,
  filter f (seq (S start) len)
  = map S (filter (fun i => f (S i)) (seq start len)).
Proof.
  induction len as [|len IH]; intros start; simpl; [reflexivity|].
  rewrite IH. destruct (f (S start)); reflexivity.
Qed.

Lemma alive_refs_length : forall s,
  length (alive_refs s) = length (filter alive s).
Proof.
  unfold alive_refs. induction s as [|n s IH]; simpl; [reflexivity|].
  rewrite filter_seq_shift. unfold get at 1; simpl.
  destruct (alive n); simpl; rewrite length_map; fold (get s); now rewrite <- IH.
Qed.

Lemma num_ch_bounds : forall l : list nat,
  l <> [] -> (1 <= num_ch l <= length l)%nat.
Proof.
  intros l H. unfold num_ch.
  assert (Hl : (1 <= length l)%nat) by (destruct l; simpl; [congruence | lia]).
  pose proof (Nat.Div0.div_le_upper_bound (length l) 10 (length l)).
  assert ((length l / 10 <= length l)%nat) by (apply H0; lia).
  lia.
Qed.

Lemma node_eqb_refl : forall n, node_eqb n n = true.
Proof.
  intros n. unfold node_eqb.
  rewrite !Z.eqb_refl, Bool.eqb_reflx. simpl.
  rewrite andb_true_r. apply Qeq_bool_iff. reflexivity.
Qed.

Lemma node_eqb_id : forall a b, node_eqb a b = true -> id a = id b.
Proof.
  intros a b H. unfold node_eqb in H.
  repeat (apply andb_true_iff in H; destruct H as [H ?]).
  now apply Z.eqb_eq.
Qed.

Lemma update_at_length : forall s i f, length (update_at s i f) = length s.
Proof.
  induction s as [|n s IH]; intros [|i] f; simpl; auto.
Qed.

Lemma use_energy_at_ids : forall s i amount,
  map id (use_energy_at s i amount) = map id s.
Proof.
  unfold use_energy_at.
  induction s as [|n s IH]; intros [|i] amount; simpl; auto.
  - now rewrite use_energy_id.
  - now rewrite IH.
Qed.

Lemma debits_get_pos : forall s s' i,
  debits s s' -> pos (get s' i) = pos (get s i).
Proof.
  unfold get. intros s s' i H. revert i.
  induction H as [|n n' s s' Hn Hs IH]; intros [|i]; simpl; auto.
  now apply debited_pos.
Qed.

Lemma get_id : forall s i, id (get s i) = nth i (map id s) 0%Z.
Proof.
  intros s i. unfold get.
  change 0%Z with (id no_node). now rewrite map_nth.
Qed.

Lemma debits_ids : forall s s', debits s s' -> map id s' = map id s.
Proof.
  induction 1 as [|n n' s s' Hn Hs IH]; simpl; [reflexivity|].
  now rewrite IH, (debited_id _ _ Hn).
Qed.

Lemma create_nodes_ids : forall draw n,
  NoDup (map id (create_nodes draw n)).
Proof.
  intros draw n. unfold create_nodes. rewrite map_map. simpl.
  apply Finite.Injective_map_NoDup; [|apply seq_NoDup].
  intros a b. apply Nat2Z.inj.
Qed.

(** Every store of a run that starts from [create_nodes] has distinct ids. *)
Lemma run_simulation_ids :
  forall (G : Geometry) proto rng draw n rounds packets hard soft,
  NoDup (map id (sim_nodes (run_simulation proto rng (create_nodes draw n)
                                           rounds packets hard soft))).
Proof.
  intros. unfold run_simulation.
  rewrite (debits_ids _ _ (sim_loop_debits proto rng packets hard soft rounds 0
             (mkSimulation (create_nodes draw n) [] [] [] 0%Z))).
  apply create_nodes_ids.
Qed.

(** ** LEACH: who is a cluster head *)

Lemma in_heads_is_head : forall s heads i,
  NoDup (map id s) ->
  (forall c, In c heads -> (c < length s)%nat) ->
  (i < length s)%nat ->
  in_heads s heads i = is_head heads i.
Proof.
  intros s heads i Hnd Hin Hi. unfold in_heads, is_head.
  induction heads as [|c heads IH]; simpl; [reflexivity|].
  rewrite IH by (intros; apply Hin; now right). f_equal.
  destruct (Nat.eqb i c) eqn:E.
  - apply Nat.eqb_eq in E. subst. apply node_eqb_refl.
  - destruct (node_eqb (get s c) (get s i)) eqn:E'; [|reflexivity].
    apply node_eqb_id in E'. rewrite !get_id in E'.
    assert (Hc : (c < length (map id s))%nat)
      by (rewrite length_map; apply Hin; now left).
    assert (Hi' : (i < length (map id s))%nat) by now rewrite length_map.
    pose proof (proj1 (NoDup_nth (map id s) 0%Z) Hnd c i Hc Hi' E').
    apply Nat.eqb_neq in E. congruence.
Qed.

Lemma is_head_In : forall heads i, is_head heads i = true <-> In i heads.
Proof.
  intros heads i. unfold is_head. rewrite existsb_exists. split.
  - intros (c & Hc & E). apply Nat.eqb_eq in E. now subst.
  - intros H. exists i. split; [exact H | apply Nat.eqb_refl].
Qed.

Lemma count_heads : forall heads todo,
  NoDup todo -> NoDup heads -> incl heads todo ->
  length (filter (is_head heads) todo) = length heads.
Proof.
  intros heads todo Ht Hh Hincl.
  apply Permutation_length, NoDup_Permutation.
  - now apply NoDup_filter.
  - exact Hh.
  - intros x. rewrite filter_In, is_head_In. split.
    + tauto.
    + intros H. split; [now apply Hincl | exact H].
Qed.

Section LeachFacts.

Context {G : Geometry}.

Lemma leach_loop_delivered : forall heads packets todo s paths delivered,
  NoDup (map id s) ->
  (forall c, In c heads -> (c < length s)%nat) ->
  (forall i, In i todo -> (i < length s)%nat) ->
  delivered_of (leach_loop heads packets todo s paths delivered)
  = (delivered + packets * Z.of_nat (length (filter (is_head heads) todo)))%Z.
Proof.
  induction todo as [|i rest IH]; intros s paths delivered Hnd Hh Ht;
    cbn [leach_loop filter].
  - unfold delivered_of; simpl. lia.
  - rewrite (in_heads_is_head s heads i Hnd Hh) by (apply Ht; now left).
    destruct (is_head heads i); cbn [length]; rewrite IH.
    + rewrite Nat2Z.inj_succ. lia.
    + now rewrite use_energy_at_ids.
    + intros c Hc. unfold use_energy_at. rewrite update_at_length. auto.
    + intros j Hj. unfold use_energy_at. rewrite update_at_length.
      apply Ht. now right.
    + reflexivity.
    + now rewrite !use_energy_at_ids.
    + intros c Hc. unfold use_energy_at. rewrite !update_at_length. auto.
    + intros j Hj. unfold use_energy_at. rewrite !update_at_length.
      apply Ht. now right.
Qed.

Lemma leach_loop_sources : forall heads packets todo s0 s paths delivered,
  debits s0 s ->
  map fst (paths_of (leach_loop heads packets todo s paths delivered))
  = map fst paths ++ map (fun i => pos (get s0 i)) todo.
Proof.
  induction todo as [|i rest IH]; intros s0 s paths delivered H;
    cbn [leach_loop map].
  - unfold paths_of; simpl. now rewrite app_nil_r.
  - assert (H1 : forall a, 0 <= a -> debits s0 (use_energy_at s i a))
      by (intros; now apply debits_step).
    assert (Htx : forall p, 0 <= TX_COST * (distance (pos (get s i)) p / 60))
      by (intros; apply tx_amount_nonneg; [apply distance_nonneg | lra]).
    destruct (in_heads s heads i).
    + rewrite (IH s0) by (apply H1, Htx).
      rewrite map_app; simpl.
      rewrite (debits_get_pos s0) by (apply H1, Htx).
      now rewrite <- app_assoc.
    + assert (H2 : debits s0
                (use_energy_at
                   (use_energy_at s i
                      (TX_COST * (distance (pos (get s i))
                                    (pos (get s (nearest_head s heads i))) / 60)))
                   (nearest_head s heads i) (RX_COST * 0.4)))
        by (apply debits_step; [apply rx_amount_nonneg | apply H1, Htx]).
      rewrite (IH s0) by exact H2.
      rewrite map_app; simpl.
      rewrite (debits_get_pos s0) by exact H2.
      now rewrite <- app_assoc.
Qed.

Lemma cluster_heads_facts : forall draw nodes,
  alive_refs nodes <> [] ->
  let heads := cluster_heads_of draw (alive_refs nodes) in
  length heads = Nat.max 1 (alive_count nodes / 10)
  /\ NoDup heads
  /\ incl heads (alive_refs nodes).
Proof.
  intros draw nodes H heads. subst heads. unfold cluster_heads_of.
  repeat split.
  - rewrite sample_length by (apply num_ch_bounds; exact H).
    unfold num_ch, alive_count. now rewrite alive_refs_length.
  - apply sample_NoDup, alive_refs_NoDup.
  - intros c Hc. eapply sample_In; exact Hc.
Qed.

Lemma leach_delivered : forall draw nodes packets,
  NoDup (map id nodes) ->
  alive_refs nodes <> [] ->
  delivered_of (leach draw nodes packets)
  = (packets * Z.of_nat (Nat.max 1 (alive_count nodes / 10)))%Z.
Proof.
  intros draw nodes packets Hnd Ha.
  destruct (cluster_heads_facts draw nodes Ha) as (Hlen & Hh & Hincl).
  unfold leach. destruct (alive_refs nodes) as [|i0 rest] eqn:E;
    [congruence|].
  rewrite <- E in *.
  rewrite leach_loop_delivered.
  - rewrite count_heads; auto using alive_refs_NoDup.
    rewrite Hlen. lia.
  - exact Hnd.
  - intros c Hc. apply Hincl in Hc. now apply alive_refs_In in Hc.
  - intros j Hj. now apply alive_refs_In in Hj.
Qed.

End LeachFacts.

(** ** Counting delivered packets *)

Lemma map_get_alive_refs : forall s, map (get s) (alive_refs s) = filter alive s.
Proof.
  unfold alive_refs. induction s as [|n s IH]; [reflexivity|].
  cbn [length seq filter]. rewrite <- IH.
  rewrite filter_seq_shift.
  change (fun i => alive (get (n :: s) (S i))) with (fun i => alive (get s i)).
  change (get (n :: s) 0) with n.
  destruct (alive n); cbn [map]; rewrite map_map; reflexivity.
Qed.

Lemma alive_refs_nonempty : forall s,
  (1 <= alive_count s)%nat <-> alive_refs s <> [].
Proof.
  intros s. unfold alive_count. rewrite <- alive_refs_length.
  destruct (alive_refs s); simpl; split; intros H; try lia; congruence.
Qed.

Lemma sorted_by_nonempty : forall key l, l <> [] -> sorted_by key l <> [].
Proof.
  intros key [|x l] H; [congruence|]. simpl.
  destruct (sorted_by key l) as [|y l']; simpl; [discriminate|].
  destruct (key x <=? key y)%Z; discriminate.
Qed.

Section Delivered.

Context {G : Geometry}.

Lemma direct_loop_delivered : forall todo packets paths delivered,
  delivered_of (direct_loop todo packets paths delivered)
  = (delivered
     + packets * Z.of_nat (length (filter
         (fun n => alive n && survives_own_debit 50 n) todo)))%Z.
Proof.
  induction todo as [|n rest IH]; intros packets paths delivered;
    cbn [direct_loop filter].
  - unfold delivered_of; simpl. lia.
  - unfold survives_own_debit at 1. unfold tx_to_base at 1.
    destruct (alive n) eqn:Ha; cbn [negb andb].
    + destruct (alive (use_energy n _)) eqn:Hs.
      * specialize (IH packets
                       (paths ++ [(pos (use_energy n
                          (TX_COST * (distance (pos n) BS_POS / 50))), BS_POS)])
                       (delivered + packets)%Z).
        destruct (direct_loop rest _ _ _) as [[ns p] d].
        unfold delivered_of in *; cbn [snd length] in *.
        rewrite IH, Nat2Z.inj_succ. lia.
      * specialize (IH packets paths delivered).
        destruct (direct_loop rest _ _ _) as [[ns p] d].
        unfold delivered_of in *; cbn [snd] in *. exact IH.
    + specialize (IH packets paths delivered).
      destruct (direct_loop rest _ _ _) as [[ns p] d].
      unfold delivered_of in *; cbn [snd] in *. exact IH.
Qed.

Lemma teen_loop_delivered :
  forall todo pre packets hard soft uniform paths delivered,
  delivered_of (teen_loop todo packets hard soft uniform
                          (length (filter alive pre)) paths delivered)
  = (delivered
     + packets * Z.of_nat (length (filter
         (fun i => teen_transmits uniform hard soft (pre ++ todo) i
                   && survives_own_debit 55 (get (pre ++ todo) i))
         (seq (length pre) (length todo)))))%Z.
Proof.
  induction todo as [|n rest IH];
    intros pre packets hard soft uniform paths delivered;
    cbn [teen_loop length seq filter].
  - unfold delivered_of; simpl. lia.
  - assert (Hget : get (pre ++ n :: rest) (length pre) = n)
      by (unfold get; apply nth_middle).
    assert (Hidx : draw_index (pre ++ n :: rest) (length pre)
                   = length (filter alive pre)).
    { unfold draw_index. rewrite firstn_app, firstn_all, Nat.sub_diag.
      simpl. now rewrite app_nil_r. }
    assert (Happ : pre ++ n :: rest = (pre ++ [n]) ++ rest)
      by (now rewrite <- app_assoc).
    assert (Hlen : S (length pre) = length (pre ++ [n]))
      by (rewrite length_app; simpl; lia).
    unfold teen_transmits at 1. rewrite Hget, Hidx.
    unfold survives_own_debit at 1. unfold tx_to_base at 1.
    rewrite Happ, Hlen.
    assert (Hk : length (filter alive (pre ++ [n]))
                 = if alive n then S (length (filter alive pre))
                   else length (filter alive pre)).
    { rewrite filter_app, length_app. simpl.
      destruct (alive n); simpl; lia. }
    destruct (alive n) eqn:Ha; cbn [negb andb].
    + destruct (teen_triggers _ hard soft) eqn:Ht; cbn [andb].
      * destruct (alive (use_energy n _)) eqn:Hs.
        -- specialize (IH (pre ++ [n]) packets hard soft uniform
                          (paths ++ [(pos (use_energy n
                             (TX_COST * (distance (pos n) BS_POS / 55))), BS_POS)])
                          (delivered + packets)%Z).
           rewrite Hk in IH.
           destruct (teen_loop rest _ _ _ _ _ _ _) as [[ns p] d].
           unfold delivered_of in *; cbn [snd length] in *.
           rewrite IH, Nat2Z.inj_succ. lia.
        -- specialize (IH (pre ++ [n]) packets hard soft uniform paths delivered).
           rewrite Hk in IH.
           destruct (teen_loop rest _ _ _ _ _ _ _) as [[ns p] d].
           unfold delivered_of in *; cbn [snd] in *. exact IH.
      * specialize (IH (pre ++ [n]) packets hard soft uniform paths delivered).
        rewrite Hk in IH.
        destruct (teen_loop rest _ _ _ _ _ _ _) as [[ns p] d].
        unfold delivered_of in *; cbn [snd] in *. exact IH.
    + specialize (IH (pre ++ [n]) packets hard soft uniform paths delivered).
      rewrite Hk in IH.
      destruct (teen_loop rest _ _ _ _ _ _ _) as [[ns p] d].
      unfold delivered_of in *; cbn [snd] in *. exact IH.
Qed.

Lemma pegasis_delivered : forall nodes packets,
  alive_refs nodes <> [] -> delivered_of (pegasis nodes packets) = packets.
Proof.
  intros nodes packets H. unfold pegasis.
  pose proof (sorted_by_nonempty (fun i => fst (pos (get nodes i))) _ H) as Hc.
  fold (chain_of nodes) in Hc.
  destruct (pegasis_loop (chain_of nodes) nodes []) as [s paths].
  destruct (chain_of nodes); [congruence|]. reflexivity.
Qed.

End Delivered.

(** ** LEACH edges, and TEEN node by node *)

Lemma heads_taken : forall heads todo,
  NoDup todo -> NoDup heads -> incl heads todo ->
  Permutation (filter (is_head heads) todo) heads.
Proof.
  intros heads todo Ht Hh Hincl. apply NoDup_Permutation.
  - now apply NoDup_filter.
  - exact Hh.
  - intros x. rewrite filter_In, is_head_In. split.
    + tauto.
    + intros H. split; [now apply Hincl | exact H].
Qed.

Lemma min_by_ext : forall (A : Type) (key key' : A -> Q) xs best,
  (forall x, key x = key' x) -> min_by key best xs = min_by key' best xs.
Proof.
  induction xs as [|x rest IH]; intros best H; [reflexivity|].
  cbn [min_by]. rewrite !H. now apply IH.
Qed.

Section LeachEdges.

Context {G : Geometry}.

Lemma nearest_head_debits : forall s0 s heads i,
  debits s0 s -> nearest_head s heads i = nearest_head s0 heads i.
Proof.
  intros s0 s heads i H. unfold nearest_head.
  destruct heads as [|c cs]; [reflexivity|].
  apply min_by_ext. intros x. now rewrite !(debits_get_pos s0 s).
Qed.

Lemma leach_loop_paths : forall heads packets todo s0 s paths delivered,
  debits s0 s ->
  NoDup (map id s0) ->
  (forall c, In c heads -> (c < length s0)%nat) ->
  (forall i, In i todo -> (i < length s0)%nat) ->
  paths_of (leach_loop heads packets todo s paths delivered)
  = paths
    ++ map (fun i =>
              (pos (get s0 i),
               if is_head heads i then BS_POS
               else pos (get s0 (nearest_head s0 heads i))))
           todo.
Proof.
  induction todo as [|i rest IH]; intros s0 s paths delivered H Hnd Hh Ht.
  - unfold paths_of; simpl. now rewrite app_nil_r.
  - cbn [leach_loop map].
    assert (Hlen : length s = length s0)
      by (symmetry; exact (Forall2_length H)).
    assert (Hids : NoDup (map id s)) by (now rewrite (debits_ids _ _ H)).
    rewrite (in_heads_is_head s heads i Hids)
      by (rewrite Hlen; auto using in_eq).
    assert (H1 : forall a, 0 <= a -> debits s0 (use_energy_at s i a))
      by (intros; now apply debits_step).
    assert (Htx : forall p, 0 <= TX_COST * (distance (pos (get s i)) p / 60))
      by (intros; apply tx_amount_nonneg; [apply distance_nonneg | lra]).
    assert (Hrest : forall j, In j rest -> (j < length s0)%nat)
      by (intros; apply Ht; now right).
    destruct (is_head heads i).
    + rewrite (IH s0) by (auto using in_cons).
      rewrite (debits_get_pos s0) by (apply H1, Htx).
      now rewrite <- app_assoc.
    + assert (H2 : debits s0
                (use_energy_at
                   (use_energy_at s i
                      (TX_COST * (distance (pos (get s i))
                                    (pos (get s (nearest_head s heads i))) / 60)))
                   (nearest_head s heads i) (RX_COST * 0.4)))
        by (apply debits_step; [apply rx_amount_nonneg | apply H1, Htx]).
      rewrite (IH s0) by auto.
      rewrite !(debits_get_pos s0 _ _ H2), (nearest_head_debits s0 s heads i H).
      now rewrite <- app_assoc.
Qed.

End LeachEdges.

Lemma leach_with_alive_nodes :
  forall (G : Geometry) draw nodes packets,
  alive_refs nodes <> [] ->
  leach draw nodes packets
  = leach_loop (cluster_heads_of draw (alive_refs nodes)) packets
               (alive_refs nodes) nodes [] 0%Z.
Proof.
  intros G draw nodes packets H. unfold leach.
  destruct (alive_refs nodes); [congruence | reflexivity].
Qed.

Section TeenClosed.

Context {G : Geometry}.

(** The TEEN loop in closed form, for the part [todo] of a store that
    follows the part [pre]. *)
Lemma teen_loop_closed :
  forall todo pre packets hard soft uniform paths delivered,
  teen_loop todo packets hard soft uniform
            (length (filter alive pre)) paths delivered
  = (map (fun i =>
            if teen_transmits uniform hard soft (pre ++ todo) i
            then use_energy (get (pre ++ todo) i)
                            (tx_to_base 55 (get (pre ++ todo) i))
            else get (pre ++ todo) i)
         (seq (length pre) (length todo)),
     paths
     ++ map (fun i => (pos (get (pre ++ todo) i), BS_POS))
            (filter (fun i => teen_transmits uniform hard soft (pre ++ todo) i
                              && survives_own_debit 55 (get (pre ++ todo) i))
                    (seq (length pre) (length todo))),
     (delivered
      + packets * Z.of_nat (length (filter
          (fun i => teen_transmits uniform hard soft (pre ++ todo) i
                    && survives_own_debit 55 (get (pre ++ todo) i))
          (seq (length pre) (length todo)))))%Z).
Proof.
  induction todo as [|n rest IH];
    intros pre packets hard soft uniform paths delivered;
    cbn [teen_loop length seq filter map].
  - now rewrite app_nil_r, Z.mul_0_r, Z.add_0_r.
  - assert (Hget : get (pre ++ n :: rest) (length pre) = n)
      by (unfold get; apply nth_middle).
    assert (Hidx : draw_index (pre ++ n :: rest) (length pre)
                   = length (filter alive pre)).
    { unfold draw_index. rewrite firstn_app, firstn_all, Nat.sub_diag.
      simpl. now rewrite app_nil_r. }
    assert (Happ : pre ++ n :: rest = (pre ++ [n]) ++ rest)
      by (now rewrite <- app_assoc).
    assert (Hlen : S (length pre) = length (pre ++ [n]))
      by (rewrite length_app; simpl; lia).
    assert (Hk : length (filter alive (pre ++ [n]))
                 = if alive n then S (length (filter alive pre))
                   else length (filter alive pre)).
    { rewrite filter_app, length_app. simpl.
      destruct (alive n); simpl; lia. }
    assert (Hsend : teen_transmits uniform hard soft (pre ++ n :: rest)
                                   (length pre)
                    = alive n
                      && teen_triggers (uniform (length (filter alive pre)))
                                       hard soft).
    { unfold teen_transmits. now rewrite Hget, Hidx. }
    rewrite Hsend, Hget, Happ, Hlen. rewrite Happ in Hget.
    change (alive (use_energy n (TX_COST * (distance (pos n) BS_POS / 55))))
      with (survives_own_debit 55 n).
    change (TX_COST * (distance (pos n) BS_POS / 55)) with (tx_to_base 55 n).
    specialize (IH (pre ++ [n]) packets hard soft uniform).
    rewrite Hk in IH.
    destruct (alive n) eqn:Ha; cbn [negb andb].
    + destruct (teen_triggers _ hard soft) eqn:Ht; cbn [andb].
      * destruct (survives_own_debit 55 n) eqn:Hs;
          rewrite IH; cbn [map length]; [|reflexivity].
        rewrite Hget, use_energy_pos, <- (app_assoc paths), Nat2Z.inj_succ.
        cbn [app]. f_equal. lia.
      * now rewrite IH.
    + now rewrite IH.
Qed.

End TeenClosed.

(** ** The claims *)

(** C1. Over any run of any protocol the [alive] flag of a node never goes
    back to true: between the store after [k] rounds and the store after
    [k + j] rounds every node has only been debited (its later dict is the
    result of calls of [use_energy] on the earlier one, the only operation
    that writes [alive]), and a node that was dead is still dead. *)
Theorem alive_flag_monotone {G : Geometry}
        (proto : protocol) (rng : nat -> randomness) (nodes : store)
        (packets : Z) (hard soft : Q) (k j : nat) :
  let before := sim_nodes (run_simulation proto rng nodes k packets hard soft) in
  let after :=
    sim_nodes (run_simulation proto rng nodes (k + j) packets hard soft) in
  Forall2 (fun n n' => debited n n' /\ (alive n = false -> alive n' = false))
          before after.
Proof.
  intros before after. subst before after. unfold run_simulation.
  rewrite sim_loop_add. simpl.
  eapply Forall2_impl; [|apply sim_loop_debits].
  intros n n' H. split; [exact H | now apply debited_alive_mono].
Qed.

(** C2. The series of total residual energy recorded by a run has one
    entry per round, the sum of [max(energy, 0)] over the store that the
    round leaves; it never goes up from one round to the next, whatever
    the protocol; and no round raises the energy of any node. *)
Theorem residual_energy_nonincreasing {G : Geometry}
        (proto : protocol) (rng : nat -> randomness) (nodes : store)
        (rounds : nat) (packets : Z) (hard soft : Q)
        (rnd : randomness) (s : store) :
  let run := fun r => run_simulation proto rng nodes r packets hard soft in
  let series := energy_history (run rounds) in
  length series = rounds
  /\ (forall r, (r < rounds)%nat ->
        nth_error series r
        = Some (total_residual_energy (sim_nodes (run (S r)))))
  /\ nonincreasing series
  /\ Forall2 (fun n n' => energy n' <= energy n)
             s (nodes_of (run_round proto rnd s packets hard soft)).
Proof.
  intros run series. subst run series. split; [|split; [|split]].
  - unfold run_simulation. now rewrite sim_loop_energy_history_length.
  - intros r Hr. now apply energy_history_nth.
  - apply sim_loop_energy_series_ok. split; simpl; constructor.
  - eapply Forall2_impl; [|apply run_round_debits].
    intros n n'. apply debited_energy_le.
Qed.

(** C3. The debit operation does nothing to a dead node: after any number
    of calls, with any amounts, the node is the same dict, with the same
    [energy] and the same [alive]. *)
Theorem use_energy_dead_noop (n : node) (amounts : list Q) :
  alive n = false ->
  let n' := fold_left use_energy amounts n in
  n' = n /\ energy n' = energy n /\ alive n' = alive n.
Proof.
  intros Hd n'.
  assert (E : n' = n).
  { subst n'. induction amounts as [|a rest IH]; simpl; [reflexivity|].
    now rewrite (use_energy_dead _ _ Hd). }
  rewrite E. auto.
Qed.

Lemma use_energy_dead_noop_witness :
  let n := mkNode 7 (3, 4)%Z (-1 # 50) false in
  let n' := fold_left use_energy [0.5; 0; 2] n in
  n' = n /\ energy n' = energy n /\ alive n' = alive n.
Proof.
  intros n. apply (use_energy_dead_noop n [0.5; 0; 2]). reflexivity.
Defined.

(** C4, as the code has it.  In Direct and in TEEN a round delivers the
    packets of the transmitting nodes whose [alive] flag is still true
    after their own debit, and of no other node.  In PEGASIS the packets
    of the last node of the chain, and in LEACH the packets of every
    cluster head, are delivered whether or not the node survives its
    debit. *)
Theorem delivered_packets_by_protocol {G : Geometry}
        (draw : nat -> nat) (uniform : nat -> Q) (nodes : store)
        (packets : Z) (hard soft : Q) :
  delivered_of (direct_routing nodes packets)
  = (packets * Z.of_nat (length (filter
       (fun n => alive n && survives_own_debit 50 n) nodes)))%Z
  /\ delivered_of (teen uniform nodes packets hard soft)
     = (packets * Z.of_nat (length (filter
          (fun i => teen_transmits uniform hard soft nodes i
                    && survives_own_debit 55 (get nodes i))
          (seq 0 (length nodes)))))%Z
  /\ (alive_refs nodes <> [] ->
      delivered_of (pegasis nodes packets) = packets)
  /\ (NoDup (map id nodes) -> alive_refs nodes <> [] ->
      delivered_of (leach draw nodes packets)
      = (packets * Z.of_nat (Nat.max 1 (alive_count nodes / 10)))%Z).
Proof.
  repeat split.
  - unfold direct_routing. rewrite direct_loop_delivered. lia.
  - unfold teen.
    pose proof (teen_loop_delivered nodes [] packets hard soft uniform [] 0%Z)
      as H.
    simpl in H. rewrite H. lia.
  - apply pegasis_delivered.
  - apply leach_delivered.
Qed.

Lemma delivered_packets_by_protocol_witness :
  let nodes := [mkNode 0 (50, 0)%Z (1 # 300) true;
                mkNode 1 (50, 100)%Z INITIAL_ENERGY true] in
  delivered_of (pegasis (G := grid) nodes 3) = 3%Z
  /\ delivered_of (leach (G := grid) (fun _ => 0%nat) nodes 3)
     = (3 * Z.of_nat (Nat.max 1 (alive_count nodes / 10)))%Z.
Proof.
  intros nodes.
  destruct (delivered_packets_by_protocol (G := grid)
              (fun _ => 0%nat) (fun _ => 60) nodes 3 50 5)
    as (_ & _ & Hp & Hl).
  split.
  - apply Hp. vm_compute. discriminate.
  - apply Hl.
    + vm_compute. repeat constructor; simpl; intuition discriminate.
    + vm_compute. discriminate.
Defined.

(** C4, as the claim states it, fails in LEACH and in PEGASIS: a single
    alive node whose energy its own transmission uses up (1/300 is what a
    node at (50, 0) has left after 26 rounds of LEACH).  The node is dead
    after its debit, and the round still delivers its packets.  In a run
    of 27 rounds of LEACH from the fresh node, the node dies in the last
    round and all 27 rounds deliver. *)
Lemma delivered_survival_counterexample :
  let n := mkNode 0 (50, 0)%Z (1 # 300) true in
  let l := leach (G := grid) (fun _ => 0%nat) [n] 3 in
  let p := pegasis (G := grid) [n] 3 in
  let rng := fun _ : nat => mkRandomness (fun _ => 0%nat) (fun _ => 0) in
  let run := run_simulation (G := grid) LEACH rng
               [mkNode 0 (50, 0)%Z INITIAL_ENERGY true] 27 3 0 0 in
  alive n = true
  /\ map alive (nodes_of l) = [false]
  /\ paths_of l = [((50, 0)%Z, BS_POS)]
  /\ delivered_of l = 3%Z
  /\ map alive (nodes_of p) = [false]
  /\ paths_of p = [((50, 0)%Z, BS_POS)]
  /\ delivered_of p = 3%Z
  /\ dead_history run = repeat 0%nat 26 ++ [1%nat]
  /\ delivered_total run = (27 * 3)%Z.
Proof.
  vm_compute. repeat split.
Qed.

(** C5. A round of any protocol on a store without alive nodes returns the
    store as it is, no edge and no delivered packet. *)
Theorem round_without_alive_nodes {G : Geometry}
        (proto : protocol) (rnd : randomness) (nodes : store)
        (packets : Z) (hard soft : Q) :
  Forall (fun n => alive n = false) nodes ->
  run_round proto rnd nodes packets hard soft = (nodes, [], 0%Z).
Proof.
  intros H. destruct proto; simpl.
  - now apply direct_loop_dead.
  - unfold leach. now rewrite (alive_refs_dead _ H).
  - unfold pegasis, chain_of. now rewrite (alive_refs_dead _ H).
  - now apply teen_loop_dead.
Qed.

Lemma round_without_alive_nodes_witness :
  let nodes := [mkNode 0 (10, 20)%Z (-1 # 100) false; mkNode 1 (70, 5)%Z 0 false] in
  let rnd := mkRandomness (fun _ => 0%nat) (fun _ => 60) in
  run_round (G := grid) Direct rnd nodes 3 50 5 = (nodes, [], 0%Z)
  /\ run_round (G := grid) LEACH rnd nodes 3 50 5 = (nodes, [], 0%Z)
  /\ run_round (G := grid) PEGASIS rnd nodes 3 50 5 = (nodes, [], 0%Z)
  /\ run_round (G := grid) TEEN rnd nodes 3 50 5 = (nodes, [], 0%Z).
Proof.
  intros nodes rnd.
  assert (H : Forall (fun n => alive n = false) nodes)
    by (repeat constructor).
  split; [|split; [|split]];
    apply (round_without_alive_nodes (G := grid)); exact H.
Defined.

(** C6. A LEACH round with an alive node elects
    [max(1, alive_count // 10)] cluster heads, no node twice, all of them
    alive nodes.  On a store of nodes with distinct ids these are the
    heads of the round: the edges to the base station leave from them and
    from no other node (every other alive node has its edge to its nearest
    head), the alive nodes that the round takes for heads are the elected
    ones, and [packets] are delivered for each of them.  With a single
    alive node that node is the only head, and the round is its
    transmission to the base station: it is debited for it, the only edge
    goes from the node to the base station and its packets are
    delivered. *)
Theorem leach_cluster_heads {G : Geometry}
        (draw : nat -> nat) (nodes : store) (packets : Z) :
  alive_refs nodes <> [] ->
  let heads := cluster_heads_of draw (alive_refs nodes) in
  let o := leach draw nodes packets in
  length heads = Nat.max 1 (alive_count nodes / 10)
  /\ NoDup heads
  /\ (forall c, In c heads ->
        (c < length nodes)%nat /\ alive (get nodes c) = true)
  /\ (NoDup (map id nodes) ->
        paths_of o
        = map (fun i =>
                 (pos (get nodes i),
                  if is_head heads i then BS_POS
                  else pos (get nodes (nearest_head nodes heads i))))
              (alive_refs nodes)
        /\ Permutation (filter (in_heads nodes heads) (alive_refs nodes)) heads
        /\ delivered_of o = (packets * Z.of_nat (length heads))%Z)
  /\ (forall i, alive_refs nodes = [i] ->
        heads = [i]
        /\ o = (use_energy_at nodes i (tx_to_base 60 (get nodes i)),
                [(pos (get nodes i), BS_POS)], packets)).
Proof.
  intros Ha heads o.
  destruct (cluster_heads_facts draw nodes Ha) as (Hlen & Hnd & Hincl).
  fold heads in Hlen, Hnd, Hincl.
  assert (Hrange : forall c, In c heads -> (c < length nodes)%nat).
  { intros c Hc. apply Hincl in Hc. now apply alive_refs_In in Hc. }
  split; [exact Hlen|]. split; [exact Hnd|]. split; [|split].
  - intros c Hc. apply alive_refs_In. now apply Hincl.
  - intros Hids. split; [|split].
    + subst o. rewrite leach_with_alive_nodes by exact Ha. fold heads.
      rewrite (leach_loop_paths heads packets (alive_refs nodes) nodes nodes
                 [] 0%Z (debits_refl nodes) Hids Hrange).
      * reflexivity.
      * intros j Hj. now apply alive_refs_In in Hj.
    + rewrite (filter_ext_in (in_heads nodes heads) (is_head heads)).
      * apply heads_taken; auto using alive_refs_NoDup.
      * intros j Hj. apply in_heads_is_head; auto.
        now apply alive_refs_In in Hj.
    + subst o. rewrite leach_delivered by assumption. now rewrite Hlen.
  - intros i Hi.
    assert (Hheads : heads = [i]).
    { subst heads. rewrite Hi. unfold cluster_heads_of, num_ch.
      change (Nat.max 1 (length [i] / 10)) with 1%nat.
      apply sample_singleton. }
    split; [exact Hheads|].
    unfold heads in Hheads. rewrite Hi in Hheads.
    subst o. unfold leach. rewrite Hi, Hheads.
    cbn [leach_loop in_heads existsb app].
    rewrite node_eqb_refl. cbn [orb Z.add]. unfold tx_to_base.
    rewrite (debits_get_pos nodes (use_energy_at nodes i _)).
    + reflexivity.
    + apply debits_use_energy_at, tx_amount_nonneg;
        [apply distance_nonneg | lra].
Qed.

Lemma leach_cluster_heads_witness :
  let draw := fun k : nat => (7 * k + 3)%nat in
  let nodes := create_nodes draw 20 in
  let heads := cluster_heads_of draw (alive_refs nodes) in
  let o := leach (G := grid) draw nodes 3 in
  length heads = Nat.max 1 (alive_count nodes / 10)
  /\ NoDup heads
  /\ (forall c, In c heads ->
        (c < length nodes)%nat /\ alive (get nodes c) = true)
  /\ (paths_of o
      = map (fun i =>
               (pos (get nodes i),
                if is_head heads i then BS_POS
                else pos (get nodes
                            (nearest_head (G := grid) nodes heads i))))
            (alive_refs nodes)
      /\ Permutation (filter (in_heads nodes heads) (alive_refs nodes)) heads
      /\ delivered_of o = (3 * Z.of_nat (length heads))%Z)
  /\ length heads = 2%nat.
Proof.
  intros draw nodes.
  destruct (leach_cluster_heads (G := grid) draw nodes 3)
    as (H1 & H2 & H3 & H4 & _).
  { vm_compute. discriminate. }
  split; [exact H1|]. split; [exact H2|]. split; [exact H3|].
  split; [apply H4, create_nodes_ids|].
  vm_compute. reflexivity.
Defined.

(** C7. Direct routing with a single node that sits on the base station:
    the node pays nothing for its transmission, so a run of one round with
    five packets delivers five packets and records no dead node; and over
    any number of rounds the node, alive at the start, delivers in every
    round. *)
Theorem direct_node_at_base_station {G : Geometry}
        (rng : nat -> randomness) (rounds : nat) (packets : Z) (hard soft : Q) :
  let n := mkNode 0 BS_POS INITIAL_ENERGY true in
  let one := run_simulation Direct rng [n] 1 5 hard soft in
  let sim := run_simulation Direct rng [n] rounds packets hard soft in
  tx_to_base 50 n == 0
  /\ delivered_total one = 5%Z /\ dead_history one = [0%nat]
  /\ delivered_total sim = (Z.of_nat rounds * packets)%Z
  /\ dead_history sim = repeat 0%nat rounds.
Proof.
  intros n one sim.
  assert (H : at_base (mkSimulation [n] [] [] [] 0%Z)).
  { exists n. subst n. simpl. repeat split. }
  split; [now apply tx_to_base_at_base|].
  destruct (sim_loop_at_base rng 5 hard soft 1 0 _ H) as [H1 H2].
  destruct (sim_loop_at_base rng packets hard soft rounds 0 _ H) as [H3 H4].
  subst one sim. unfold run_simulation.
  rewrite H1, H2, H3, H4. simpl. repeat split; lia.
Qed.

(** C8, as the code has it.  In a TEEN round with hard threshold 0 and
    sensed values drawn from [0, 100], the node at each place of the store
    transmits exactly when it is alive and its sensed value is at least
    the soft threshold: such a node is debited for its transmission to
    the base station, and its edge and its packets are counted when it
    is still alive after the debit; every other node, the alive ones whose
    sensed value is below the soft threshold among them, is left as it is
    and counts for nothing. *)
Theorem teen_hard_zero_transmits {G : Geometry}
        (uniform : nat -> Q) (nodes : store) (packets : Z) (soft : Q) :
  (forall k, 0 <= uniform k /\ uniform k <= 100) ->
  let sends := fun i =>
    alive (get nodes i) && Qle_bool soft (uniform (draw_index nodes i)) in
  let places := seq 0 (length nodes) in
  let counted :=
    filter (fun i => sends i && survives_own_debit 55 (get nodes i)) places in
  teen uniform nodes packets 0 soft
  = (map (fun i =>
            if sends i
            then use_energy (get nodes i) (tx_to_base 55 (get nodes i))
            else get nodes i)
         places,
     map (fun i => (pos (get nodes i), BS_POS)) counted,
     (packets * Z.of_nat (length counted))%Z).
Proof.
  intros Hrange sends places counted. subst counted places. unfold teen.
  pose proof (teen_loop_closed nodes [] packets 0 soft uniform [] 0%Z) as H.
  cbn [app length filter] in H. rewrite H. clear H.
  assert (Hs : forall i, teen_transmits uniform 0 soft nodes i = sends i).
  { intros i. unfold teen_transmits, sends.
    now rewrite teen_triggers_hard_zero by apply Hrange. }
  rewrite (filter_ext _ (fun i => sends i && survives_own_debit 55 (get nodes i)))
    by (intros i; now rewrite Hs).
  rewrite (map_ext _ (fun i => if sends i
                               then use_energy (get nodes i)
                                               (tx_to_base 55 (get nodes i))
                               else get nodes i))
    by (intros i; now rewrite Hs).
  reflexivity.
Qed.

Lemma teen_hard_zero_transmits_witness :
  let uniform := fun k : nat => if Nat.eqb k 0 then 2 else 60 in
  let nodes := [mkNode 0 (50, 0)%Z INITIAL_ENERGY true;
                mkNode 1 (50, 100)%Z (-1 # 100) false;
                mkNode 2 (50, 65)%Z INITIAL_ENERGY true] in
  let sends := fun i =>
    alive (get nodes i) && Qle_bool 5 (uniform (draw_index nodes i)) in
  let places := seq 0 (length nodes) in
  let counted :=
    filter (fun i => sends i && survives_own_debit (G := grid) 55 (get nodes i))
           places in
  teen (G := grid) uniform nodes 3 0 5
  = (map (fun i =>
            if sends i
            then use_energy (get nodes i)
                            (tx_to_base (G := grid) 55 (get nodes i))
            else get nodes i)
         places,
     map (fun i => (pos (get nodes i), BS_POS)) counted,
     (3 * Z.of_nat (length counted))%Z)
  /\ map sends places = [false; false; true].
Proof.
  intros uniform nodes. split.
  - apply (teen_hard_zero_transmits (G := grid) uniform nodes 3 5).
    intros k. unfold uniform.
    destruct (Nat.eqb k 0); split; unfold Qle; simpl; lia.
  - reflexivity.
Defined.

(** C8, as the claim states it, fails: hard threshold 0, soft threshold 1
    and a sensed value of 0.5; the alive node does not transmit: it is not
    debited, and the round has no edge and no delivered packet. *)
Lemma teen_hard_zero_counterexample :
  let n := mkNode 0 (50, 0)%Z INITIAL_ENERGY true in
  let sensed := 0.5 in
  let soft := 1 in
  (0 <= sensed /\ sensed <= 100) /\ (1 <= soft /\ soft <= 20)
  /\ alive n = true
  /\ teen_triggers sensed 0 soft = false
  /\ ~ (0 == tx_to_base (G := grid) 55 n)
  /\ teen (G := grid) (fun _ => sensed) [n] 5 0 soft = ([n], [], 0%Z).
Proof.
  vm_compute. repeat split; intro H; discriminate H.
Qed.

(** C9. A round of any protocol keeps every node in the store, in its
    place, with its [id] and its [pos]; what changes in a node changes
    through [use_energy]. *)
Theorem round_frame {G : Geometry}
        (proto : protocol) (rnd : randomness) (nodes : store)
        (packets : Z) (hard soft : Q) :
  let nodes' := nodes_of (run_round proto rnd nodes packets hard soft) in
  length nodes' = length nodes
  /\ Forall2 (fun n n' => id n' = id n /\ pos n' = pos n /\ debited n n')
             nodes nodes'.
Proof.
  intros nodes'. subst nodes'.
  pose proof (run_round_debits proto rnd nodes packets hard soft) as H.
  split.
  - symmetry. exact (Forall2_length H).
  - eapply Forall2_impl; [|exact H].
    intros n n' Hd. auto using debited_id, debited_pos.
Qed.

(** C10. A LEACH round on a store of nodes with distinct ids, one of them
    alive at least, delivers [packets * max(1, alive_count // 10)]
    packets, whatever heads are drawn and whether or not a head survives
    its debit; and it returns one edge for each node that was alive at the
    start of the round, leaving from that node. *)
Theorem leach_delivered_and_edges {G : Geometry}
        (draw : nat -> nat) (nodes : store) (packets : Z) :
  NoDup (map id nodes) ->
  (1 <= alive_count nodes)%nat ->
  let o := leach draw nodes packets in
  delivered_of o = (packets * Z.of_nat (Nat.max 1 (alive_count nodes / 10)))%Z
  /\ length (paths_of o) = alive_count nodes
  /\ map fst (paths_of o) = map pos (filter alive nodes).
Proof.
  intros Hnd Ha o. subst o.
  apply alive_refs_nonempty in Ha.
  assert (Hsrc : map fst (paths_of (leach draw nodes packets))
                 = map pos (filter alive nodes)).
  { rewrite <- map_get_alive_refs, map_map.
    unfold leach. destruct (alive_refs nodes) eqn:E; [congruence|].
    rewrite (leach_loop_sources _ _ _ nodes) by apply debits_refl.
    reflexivity. }
  split; [now apply leach_delivered|]. split; [|exact Hsrc].
  unfold alive_count.
  apply (f_equal (@length position)) in Hsrc.
  now rewrite !length_map in Hsrc.
Qed.

Lemma leach_delivered_and_edges_witness :
  let nodes := [mkNode 0 (50, 0)%Z (1 # 300) true;
                mkNode 1 (50, 100)%Z INITIAL_ENERGY true;
                mkNode 2 (10, 10)%Z 0 false] in
  let o := leach (G := grid) (fun _ => 0%nat) nodes 3 in
  delivered_of o = (3 * Z.of_nat (Nat.max 1 (alive_count nodes / 10)))%Z
  /\ length (paths_of o) = alive_count nodes
  /\ map fst (paths_of o) = map pos (filter alive nodes).
Proof.
  intros nodes.
  apply (leach_delivered_and_edges (G := grid) (fun _ => 0%nat) nodes 3).
  - vm_compute. repeat constructor; simpl; intuition discriminate.
  - vm_compute. lia.
Defined.

(** ** Further properties: the population and the metric series *)

Lemma randint_bounds : forall lo hi r,
  (lo <= hi)%Z -> (lo <= randint lo hi r <= hi)%Z.
Proof.
  intros lo hi r H. unfold randint.
  pose proof (Z.mod_pos_bound (Z.of_nat r) (hi - lo + 1)). lia.
Qed.

Lemma dead_count_le_length : forall s, (dead_count s <= length s)%nat.
Proof. intros s. unfold dead_count. apply filter_length_le. Qed.

Lemma dead_count_mono : forall s s',
  debits s s' -> (dead_count s <= dead_count s')%nat.
Proof.
  unfold dead_count.
  induction 1 as [|n n' s s' Hn Hs IH]; simpl; [lia|].
  destruct (alive n) eqn:Ha; simpl.
  - destruct (alive n'); simpl; lia.
  - rewrite (debited_alive_mono _ _ Hn Ha). simpl. lia.
Qed.

Lemma dead_count_all_dead : forall s,
  Forall (fun n => alive n = false) s -> dead_count s = length s.
Proof.
  unfold dead_count. induction 1 as [|n s Hn Hs IH]; simpl; [reflexivity|].
  rewrite Hn. simpl. now rewrite IH.
Qed.

Lemma nondecreasing_map_seq : forall (f : nat -> nat) len start,
  (forall j, (f j <= f (S j))%nat) -> nondecreasing (map f (seq start len)).
Proof.
  induction len as [|len IH]; intros start H; simpl; [exact I|].
  destruct len as [|len']; simpl; [exact I|].
  split; [apply H|]. exact (IH (S start) H).
Qed.

Lemma use_energy_consistent : forall n amount,
  energy_consistent n -> energy_consistent (use_energy n amount).
Proof.
  unfold energy_consistent, use_energy. intros n amount H.
  destruct (alive n) eqn:Ha; simpl; [|now rewrite Ha].
  now destruct (Qle_bool (energy n - amount) 0).
Qed.

Lemma debited_consistent : forall n n',
  debited n n' -> energy_consistent n -> energy_consistent n'.
Proof. induction 1; auto using use_energy_consistent. Qed.

Lemma debits_Forall : forall (P : node -> Prop) s s',
  (forall n n', debited n n' -> P n -> P n') ->
  debits s s' -> Forall P s -> Forall P s'.
Proof.
  intros P s s' HP H. induction H as [|n n' s s' Hn Hs IH]; intros Hf.
  - constructor.
  - inversion Hf; subst. constructor; eauto.
Qed.

Lemma energy_consistent_iff : forall n,
  energy_consistent n -> (alive n = true <-> 0 < energy n).
Proof.
  unfold energy_consistent. intros n H. rewrite H.
  destruct (Qle_bool (energy n) 0) eqn:E; simpl.
  - apply Qle_bool_iff in E. split; [discriminate | lra].
  - split; [|reflexivity]. intros _.
    destruct (Qlt_le_dec 0 (energy n)) as [Hlt|Hle]; [exact Hlt|].
    apply Qle_bool_iff in Hle. congruence.
Qed.

Lemma residual_fold_ge : forall s acc,
  acc <= fold_left (fun acc n => acc + max2 (energy n) 0) s acc.
Proof.
  induction s as [|n s IH]; intros acc; simpl; [lra|].
  specialize (IH (acc + max2 (energy n) 0)).
  assert (0 <= max2 (energy n) 0).
  { unfold max2. destruct (Qle_bool 0 (energy n)) eqn:E; [|lra].
    now apply Qle_bool_iff in E. }
  lra.
Qed.

Lemma residual_fold_le : forall s acc,
  Forall (fun n => energy n <= INITIAL_ENERGY) s ->
  fold_left (fun acc n => acc + max2 (energy n) 0) s acc
  <= acc + inject_Z (Z.of_nat (length s)).
Proof.
  induction s as [|n s IH]; intros acc H; simpl length; cbn [fold_left].
  - change (inject_Z (Z.of_nat 0)) with 0. lra.
  - inversion H as [|? ? Hn Hs]; subst.
    specialize (IH (acc + max2 (energy n) 0) Hs).
    assert (max2 (energy n) 0 <= 1).
    { unfold max2. unfold INITIAL_ENERGY in Hn.
      destruct (Qle_bool 0 (energy n)); lra. }
    rewrite Nat2Z.inj_succ. unfold Z.succ. rewrite inject_Z_plus.
    change (inject_Z 1) with 1. lra.
Qed.

Section SeriesFacts.

Context {G : Geometry}.

Lemma sim_step_dead_history : forall proto rnd packets hard soft st,
  dead_history (sim_step proto rnd packets hard soft st)
  = dead_history st
    ++ [dead_count (sim_nodes (sim_step proto rnd packets hard soft st))].
Proof.
  intros. unfold sim_step.
  now destruct (run_round _ _ _ _ _ _) as [[ns p] d].
Qed.

(** The two series of a run, entry by entry. *)
Lemma sim_loop_dead_history : forall proto rng packets hard soft rounds r st,
  dead_history (sim_loop proto rng packets hard soft r rounds st)
  = dead_history st
    ++ map (fun j => dead_count
                       (sim_nodes (sim_loop proto rng packets hard soft r (S j) st)))
           (seq 0 rounds).
Proof.
  induction rounds as [|rounds IH]; intros r st.
  - simpl. now rewrite app_nil_r.
  - rewrite seq_S, map_app, app_assoc, <- IH. simpl map.
    rewrite (sim_loop_succ proto rng packets hard soft rounds r st) at 1.
    rewrite sim_step_dead_history. now rewrite <- sim_loop_succ.
Qed.

Lemma sim_loop_energy_history : forall proto rng packets hard soft rounds r st,
  energy_history (sim_loop proto rng packets hard soft r rounds st)
  = energy_history st
    ++ map (fun j => total_residual_energy
                       (sim_nodes (sim_loop proto rng packets hard soft r (S j) st)))
           (seq 0 rounds).
Proof.
  induction rounds as [|rounds IH]; intros r st.
  - simpl. now rewrite app_nil_r.
  - rewrite seq_S, map_app, app_assoc, <- IH. simpl map.
    rewrite (sim_loop_succ proto rng packets hard soft rounds r st) at 1.
    rewrite sim_step_energy_history. now rewrite <- sim_loop_succ.
Qed.

Lemma sim_loop_dead_count_step : forall proto rng packets hard soft r st j,
  (dead_count (sim_nodes (sim_loop proto rng packets hard soft r j st))
   <= dead_count (sim_nodes (sim_loop proto rng packets hard soft r (S j) st)))%nat.
Proof.
  intros. apply dead_count_mono.
  rewrite sim_loop_succ, sim_step_nodes. apply run_round_debits.
Qed.

Lemma sim_loop_length : forall proto rng packets hard soft rounds r st,
  length (sim_nodes (sim_loop proto rng packets hard soft r rounds st))
  = length (sim_nodes st).
Proof.
  intros. symmetry.
  exact (Forall2_length (sim_loop_debits proto rng packets hard soft rounds r st)).
Qed.

End SeriesFacts.

(** X1. [create_nodes(n)] makes [n] nodes, the node at place [i] with id
    [i]; every node is alive, has the initial energy and lies in the
    field, corners and borders included. *)
Theorem create_nodes_population (draw : nat -> nat) (n : nat) :
  let nodes := create_nodes draw n in
  length nodes = n
  /\ map id nodes = map Z.of_nat (seq 0 n)
  /\ Forall (fun nd =>
               energy nd = INITIAL_ENERGY /\ alive nd = true
               /\ (0 <= fst (pos nd) <= WIDTH)%Z
               /\ (0 <= snd (pos nd) <= HEIGHT)%Z) nodes.
Proof.
  intros nodes. subst nodes. unfold create_nodes. split; [|split].
  - now rewrite length_map, length_seq.
  - now rewrite map_map.
  - apply Forall_forall. intros nd Hin.
    apply in_map_iff in Hin. destruct Hin as (i & E & _). subst nd.
    cbn [energy alive pos fst snd].
    split; [reflexivity|]. split; [reflexivity|].
    split; apply randint_bounds; unfold WIDTH, HEIGHT; lia.
Qed.

(** X2. The series of dead counts recorded by a run has one entry per
    round, the number of dead nodes of the store that the round leaves;
    it never goes down from one round to the next, and no entry exceeds
    the number of nodes. *)
Theorem dead_history_nondecreasing {G : Geometry}
        (proto : protocol) (rng : nat -> randomness) (nodes : store)
        (rounds : nat) (packets : Z) (hard soft : Q) :
  let run := fun r => run_simulation proto rng nodes r packets hard soft in
  let series := dead_history (run rounds) in
  length series = rounds
  /\ (forall r, (r < rounds)%nat ->
        nth_error series r = Some (dead_count (sim_nodes (run (S r)))))
  /\ nondecreasing series
  /\ Forall (fun d => (d <= length nodes)%nat) series.
Proof.
  intros run series. subst run series. unfold run_simulation.
  rewrite sim_loop_dead_history. cbn [dead_history app].
  split; [|split; [|split]].
  - now rewrite length_map, length_seq.
  - intros r Hr.
    rewrite nth_error_map, nth_error_nth' with (d := 0%nat)
      by (now rewrite length_seq).
    now rewrite seq_nth.
  - apply nondecreasing_map_seq. intros j. apply sim_loop_dead_count_step.
  - apply Forall_map, Forall_forall. intros j _.
    pose proof (sim_loop_length proto rng packets hard soft (S j) 0
                  (mkSimulation nodes [] [] [] 0%Z)) as Hlen.
    cbn [sim_nodes] in Hlen. rewrite <- Hlen.
    apply dead_count_le_length.
Qed.

(** X3. In every store of a run that starts from [create_nodes], a node
    is alive exactly when its energy is positive. *)
Theorem alive_iff_energy_left {G : Geometry}
        (proto : protocol) (rng : nat -> randomness) (draw : nat -> nat)
        (n rounds : nat) (packets : Z) (hard soft : Q) :
  Forall (fun nd => alive nd = true <-> 0 < energy nd)
         (sim_nodes (run_simulation proto rng (create_nodes draw n)
                                    rounds packets hard soft)).
Proof.
  eapply Forall_impl; [intros nd; apply energy_consistent_iff|].
  unfold run_simulation.
  eapply debits_Forall;
    [apply debited_consistent | apply sim_loop_debits |].
  simpl. unfold create_nodes. apply Forall_map, Forall_forall.
  intros i _. reflexivity.
Qed.

(** X4. Every entry of the residual-energy series of a run that starts
    from [create_nodes(n)] lies between 0 and [n] times the initial
    energy. *)
Theorem energy_history_bounds {G : Geometry}
        (proto : protocol) (rng : nat -> randomness) (draw : nat -> nat)
        (n rounds : nat) (packets : Z) (hard soft : Q) :
  Forall (fun e => 0 <= e /\ e <= inject_Z (Z.of_nat n) * INITIAL_ENERGY)
         (energy_history (run_simulation proto rng (create_nodes draw n)
                                         rounds packets hard soft)).
Proof.
  unfold run_simulation. rewrite sim_loop_energy_history.
  cbn [energy_history app].
  apply Forall_map, Forall_forall. intros j _. split.
  - unfold total_residual_energy. apply residual_fold_ge.
  - pose proof (total_residual_energy_mono _ _
                  (sim_loop_debits proto rng packets hard soft (S j) 0
                     (mkSimulation (create_nodes draw n) [] [] [] 0%Z))) as H.
    cbn [sim_nodes] in H.
    assert (Hc : total_residual_energy (create_nodes draw n)
                 <= 0 + inject_Z (Z.of_nat (length (create_nodes draw n)))).
    { apply residual_fold_le. unfold create_nodes.
      apply Forall_map, Forall_forall. intros i _. simpl. lra. }
    unfold create_nodes in Hc at 2. rewrite length_map, length_seq in Hc.
    unfold INITIAL_ENERGY. lra.
Qed.

(** ** Further properties: dead nodes, and the part of [packets] *)

Lemma alive_count_mono : forall s s',
  debits s s' -> (alive_count s' <= alive_count s)%nat.
Proof.
  unfold alive_count.
  induction 1 as [|n n' s s' Hn Hs IH]; simpl; [lia|].
  destruct (alive n) eqn:Ha; simpl.
  - destruct (alive n'); simpl; lia.
  - now rewrite (debited_alive_mono _ _ Hn Ha).
Qed.

Lemma outcome_eta : forall o : outcome,
  o = (nodes_of o, paths_of o, delivered_of o).
Proof. now intros [[ns ps] d]. Qed.

Section PacketFacts.

Context {G : Geometry}.

Lemma run_round_all_dead : forall proto rnd nodes packets hard soft,
  Forall (fun n => alive n = false) nodes ->
  run_round proto rnd nodes packets hard soft = (nodes, [], 0%Z).
Proof.
  intros proto rnd nodes packets hard soft H. destruct proto; simpl.
  - now apply direct_loop_dead.
  - unfold leach. now rewrite (alive_refs_dead _ H).
  - unfold pegasis, chain_of. now rewrite (alive_refs_dead _ H).
  - now apply teen_loop_dead.
Qed.

Lemma sim_loop_all_dead : forall proto rng packets hard soft j r st,
  Forall (fun n => alive n = false) (sim_nodes st) ->
  let st' := sim_loop proto rng packets hard soft r j st in
  sim_nodes st' = sim_nodes st
  /\ delivered_total st' = delivered_total st
  /\ dead_history st'
     = dead_history st ++ repeat (length (sim_nodes st)) j
  /\ energy_history st'
     = energy_history st ++ repeat (total_residual_energy (sim_nodes st)) j.
Proof.
  induction j as [|j IH]; intros r st H; cbn [sim_loop repeat].
  - now rewrite !app_nil_r.
  - assert (E : sim_step proto (rng r) packets hard soft st
                = mkSimulation (sim_nodes st) []
                    (dead_history st ++ [length (sim_nodes st)])
                    (energy_history st ++ [total_residual_energy (sim_nodes st)])
                    (delivered_total st)).
    { unfold sim_step. rewrite (run_round_all_dead _ _ _ _ _ _ H).
      now rewrite (dead_count_all_dead _ H), Z.add_0_r. }
    rewrite E. clear E.
    destruct (IH (S r)
                 (mkSimulation (sim_nodes st) []
                    (dead_history st ++ [length (sim_nodes st)])
                    (energy_history st ++ [total_residual_energy (sim_nodes st)])
                    (delivered_total st)) H) as (H1 & H2 & H3 & H4).
    cbn [sim_nodes delivered_total dead_history energy_history] in *.
    rewrite H1, H2, H3, H4, <- !app_assoc. auto.
Qed.

(** The three results of the Direct loop. *)
Lemma direct_loop_paths : forall todo packets paths delivered,
  paths_of (direct_loop todo packets paths delivered)
  = paths ++ map (fun n => (pos n, BS_POS))
                 (filter (fun n => alive n && survives_own_debit 50 n) todo).
Proof.
  induction todo as [|n rest IH]; intros packets paths delivered;
    cbn [direct_loop filter].
  - unfold paths_of; simpl. now rewrite app_nil_r.
  - unfold survives_own_debit at 1. unfold tx_to_base at 1.
    destruct (alive n) eqn:Ha; cbn [negb andb].
    + destruct (alive (use_energy n _)) eqn:Hs.
      * specialize (IH packets
                       (paths ++ [(pos (use_energy n
                          (TX_COST * (distance (pos n) BS_POS / 50))), BS_POS)])
                       (delivered + packets)%Z).
        destruct (direct_loop rest _ _ _) as [[ns p] d].
        unfold paths_of in *; cbn [fst snd map] in *.
        now rewrite IH, use_energy_pos, <- app_assoc.
      * specialize (IH packets paths delivered).
        destruct (direct_loop rest _ _ _) as [[ns p] d].
        unfold paths_of in *; cbn [fst snd] in *. exact IH.
    + specialize (IH packets paths delivered).
      destruct (direct_loop rest _ _ _) as [[ns p] d].
      unfold paths_of in *; cbn [fst snd] in *. exact IH.
Qed.

(** The TEEN loop: what it returns but for [packets] and the
    accumulators it starts from. *)
Lemma teen_loop_shape : forall todo hard soft uniform k,
  exists ns extra,
    (length extra <= length (filter alive ns))%nat
    /\ Forall (fun e => snd e = BS_POS) extra
    /\ forall packets paths delivered,
         teen_loop todo packets hard soft uniform k paths delivered
         = (ns, paths ++ extra,
            (delivered + packets * Z.of_nat (length extra))%Z).
Proof.
  induction todo as [|n rest IH]; intros hard soft uniform k.
  - exists [], []. repeat split; auto.
    intros. simpl. now rewrite app_nil_r, Z.mul_0_r, Z.add_0_r.
  - cbn [teen_loop]. destruct (alive n) eqn:Ha; cbn [negb].
    + destruct (teen_triggers (uniform k) hard soft).
      * destruct (IH hard soft uniform (S k)) as (ns & extra & Hl & Hb & E).
        set (n' := use_energy n (TX_COST * (distance (pos n) BS_POS / 55))).
        destruct (alive n') eqn:Hs.
        -- exists (n' :: ns), ((pos n', BS_POS) :: extra). split; [|split].
           ++ cbn [filter length]. rewrite Hs. simpl. lia.
           ++ constructor; [reflexivity | exact Hb].
           ++ intros. rewrite E, <- app_assoc. cbn [app length].
              rewrite Nat2Z.inj_succ. f_equal. lia.
        -- exists (n' :: ns), extra. split; [|split].
           ++ cbn [filter]. rewrite Hs. exact Hl.
           ++ exact Hb.
           ++ intros. now rewrite E.
      * destruct (IH hard soft uniform (S k)) as (ns & extra & Hl & Hb & E).
        exists (n :: ns), extra. split; [|split].
        -- cbn [filter]. rewrite Ha. simpl. lia.
        -- exact Hb.
        -- intros. now rewrite E.
    + destruct (IH hard soft uniform k) as (ns & extra & Hl & Hb & E).
      exists (n :: ns), extra. split; [|split].
      * cbn [filter]. now rewrite Ha.
      * exact Hb.
      * intros. now rewrite E.
Qed.

Lemma leach_loop_shape : forall heads todo s,
  exists ns extra k,
    (k <= length todo)%nat
    /\ forall packets paths delivered,
         leach_loop heads packets todo s paths delivered
         = (ns, paths ++ extra, (delivered + packets * Z.of_nat k)%Z).
Proof.
  induction todo as [|i rest IH]; intros s.
  - exists s, [], 0%nat. split; [simpl; lia|].
    intros. simpl. now rewrite app_nil_r, Z.mul_0_r, Z.add_0_r.
  - cbn [leach_loop]. destruct (in_heads s heads i).
    + destruct (IH (use_energy_at s i
                      (TX_COST * (distance (pos (get s i)) BS_POS / 60))))
        as (ns & extra & k & Hk & E).
      eexists ns, (_ :: extra), (S k). split; [simpl; lia|].
      intros. rewrite E, <- app_assoc. cbn [app].
      rewrite Nat2Z.inj_succ. f_equal. lia.
    + match goal with
      | |- context [leach_loop heads _ rest ?s2 _ _] =>
          destruct (IH s2) as (ns & extra & k & Hk & E)
      end.
      eexists ns, (_ :: extra), k. split; [simpl; lia|].
      intros. now rewrite E, <- app_assoc.
Qed.

Lemma run_round_shape : forall proto rnd nodes hard soft,
  exists ns ps k,
    (k <= alive_count nodes)%nat
    /\ forall packets,
         run_round proto rnd nodes packets hard soft
         = (ns, ps, (packets * Z.of_nat k)%Z).
Proof.
  intros [] rnd nodes hard soft; cbn [run_round].
  - exists (map (fun n => use_energy n (tx_to_base 50 n)) nodes),
           (map (fun n => (pos n, BS_POS))
                (filter (fun n => alive n && survives_own_debit 50 n) nodes)),
           (length (filter (fun n => alive n && survives_own_debit 50 n) nodes)).
    split.
    + unfold alive_count. clear. induction nodes as [|n s IH]; simpl; [lia|].
      destruct (alive n); simpl; [|exact IH].
      destruct (survives_own_debit 50 n); simpl; lia.
    + intros packets. unfold direct_routing.
      rewrite (outcome_eta (direct_loop nodes packets [] 0%Z)).
      now rewrite direct_loop_nodes, direct_loop_paths, direct_loop_delivered.
  - unfold leach.
    destruct (alive_refs nodes) as [|i rest] eqn:E.
    + exists nodes, [], 0%nat. split; [lia|]. intros. f_equal. lia.
    + destruct (leach_loop_shape (cluster_heads_of (rand_index rnd) (i :: rest))
                                 (i :: rest) nodes)
        as (ns & extra & k & Hk & H).
      exists ns, extra, k. split.
      * unfold alive_count. rewrite <- alive_refs_length, E. exact Hk.
      * intros. now rewrite H.
  - unfold pegasis.
    destruct (pegasis_loop (chain_of nodes) nodes []) as [s paths].
    destruct (chain_of nodes) as [|first others] eqn:E.
    + exists s, paths, 0%nat. split; [lia|]. intros. f_equal. lia.
    + eexists _, _, 1%nat. split.
      * apply alive_refs_nonempty. intros Hn.
        unfold chain_of in E. rewrite Hn in E. discriminate.
      * intros. f_equal. lia.
  - unfold teen.
    destruct (teen_loop_shape nodes hard soft (rand_uniform rnd) 0)
      as (ns & extra & Hl & _ & H).
    exists ns, extra, (length extra). split.
    + pose proof (teen_loop_debits nodes 0%Z hard soft (rand_uniform rnd)
                                   0%nat [] 0%Z) as Hd.
      rewrite H in Hd. unfold nodes_of in Hd; simpl in Hd.
      apply alive_count_mono in Hd. unfold alive_count in *. lia.
    + intros. now rewrite H.
Qed.

End PacketFacts.

Section RunPackets.

Context {G : Geometry}.

Lemma sim_step_packets : forall proto rnd packets hard soft a b,
  same_but_packets packets a b ->
  same_but_packets packets (sim_step proto rnd packets hard soft a)
                   (sim_step proto rnd 1 hard soft b)
  /\ (delivered_total b <= delivered_total (sim_step proto rnd 1 hard soft b)
      <= delivered_total b + Z.of_nat (length (sim_nodes b)))%Z.
Proof.
  intros proto rnd packets hard soft a b (Hn & Hp & Hd & He & Ht).
  unfold sim_step. rewrite Hn.
  destruct (run_round_shape proto rnd (sim_nodes b) hard soft)
    as (ns & ps & k & Hk & H).
  rewrite !H, Z.mul_1_l. unfold same_but_packets.
  cbn [sim_nodes sim_paths dead_history energy_history delivered_total].
  assert (k <= length (sim_nodes b))%nat.
  { unfold alive_count in Hk. pose proof (filter_length_le alive (sim_nodes b)).
    lia. }
  rewrite Hd, He, Ht. repeat split; lia.
Qed.

Lemma sim_loop_packets : forall proto rng packets hard soft rounds r a b,
  same_but_packets packets a b ->
  same_but_packets packets (sim_loop proto rng packets hard soft r rounds a)
                   (sim_loop proto rng 1 hard soft r rounds b)
  /\ (delivered_total b
      <= delivered_total (sim_loop proto rng 1 hard soft r rounds b)
      <= delivered_total b
         + Z.of_nat rounds * Z.of_nat (length (sim_nodes b)))%Z.
Proof.
  induction rounds as [|rounds IH]; intros r a b H; cbn [sim_loop].
  - split; [exact H | lia].
  - destruct (sim_step_packets proto (rng r) packets hard soft a b H)
      as [H1 H2].
    destruct (IH (S r) _ _ H1) as [H3 H4]. split; [exact H3|].
    assert (E : length (sim_nodes (sim_step proto (rng r) 1 hard soft b))
                = length (sim_nodes b)).
    { rewrite sim_step_nodes. symmetry.
      exact (Forall2_length (run_round_debits proto (rng r) (sim_nodes b)
                                              1 hard soft)). }
    rewrite E in H4. rewrite Nat2Z.inj_succ. nia.
Qed.

End RunPackets.

(** X5. Over any run of any protocol a dead node is never written again:
    a node that is dead after [k] rounds is the same dict, with the same
    energy, after [k + j] rounds. *)
Theorem dead_node_frozen {G : Geometry}
        (proto : protocol) (rng : nat -> randomness) (nodes : store)
        (packets : Z) (hard soft : Q) (k j : nat) :
  let before := sim_nodes (run_simulation proto rng nodes k packets hard soft) in
  let after :=
    sim_nodes (run_simulation proto rng nodes (k + j) packets hard soft) in
  Forall2 (fun n n' => alive n = false -> n' = n) before after.
Proof.
  intros before after. subst before after. unfold run_simulation.
  rewrite sim_loop_add.
  eapply Forall2_impl; [|apply sim_loop_debits].
  intros n n' H Hd. now apply debited_dead.
Qed.

(** X6. Once every node is dead a run stands still: the rounds that
    follow leave the store as it is and deliver nothing; each of them
    records the number of nodes as the dead count and the same residual
    energy. *)
Theorem all_dead_is_final {G : Geometry}
        (proto : protocol) (rng : nat -> randomness) (nodes : store)
        (packets : Z) (hard soft : Q) (k j : nat) :
  let st := run_simulation proto rng nodes k packets hard soft in
  let st' := run_simulation proto rng nodes (k + j) packets hard soft in
  Forall (fun n => alive n = false) (sim_nodes st) ->
  sim_nodes st' = sim_nodes st
  /\ delivered_total st' = delivered_total st
  /\ dead_history st' = dead_history st ++ repeat (length nodes) j
  /\ energy_history st'
     = energy_history st ++ repeat (total_residual_energy (sim_nodes st)) j.
Proof.
  intros st st' H. subst st st'. unfold run_simulation in *.
  rewrite sim_loop_add.
  pose proof (sim_loop_length proto rng packets hard soft k 0
                (mkSimulation nodes [] [] [] 0%Z)) as Hlen.
  cbn [sim_nodes] in Hlen. rewrite <- Hlen.
  now apply sim_loop_all_dead.
Qed.

Lemma all_dead_is_final_witness :
  let rng := fun _ : nat => mkRandomness (fun _ => 0%nat) (fun _ => 0) in
  let nodes := [mkNode 0 (50, 0)%Z INITIAL_ENERGY true] in
  let st := run_simulation (G := grid) LEACH rng nodes 27 3 0 0 in
  let st' := run_simulation (G := grid) LEACH rng nodes (27 + 5) 3 0 0 in
  sim_nodes st' = sim_nodes st
  /\ delivered_total st' = delivered_total st
  /\ dead_history st' = dead_history st ++ repeat (length nodes) 5
  /\ energy_history st'
     = energy_history st ++ repeat (total_residual_energy (sim_nodes st)) 5.
Proof.
  intros rng nodes.
  apply (all_dead_is_final (G := grid) LEACH rng nodes 3 0 0 27 5).
  vm_compute. repeat constructor.
Defined.

(** X7. In a round of any protocol [packets] only scales the delivered
    count: the store and the edges that the round returns do not depend
    on it, and the round delivers [packets] times a number of nodes that
    is at most the number of nodes alive at its start. *)
Theorem round_packets_scale {G : Geometry}
        (proto : protocol) (rnd : randomness) (nodes : store) (hard soft : Q) :
  exists ns ps k,
    (k <= alive_count nodes)%nat
    /\ forall packets,
         run_round proto rnd nodes packets hard soft
         = (ns, ps, (packets * Z.of_nat k)%Z).
Proof. apply run_round_shape. Qed.

(** X8. A run with [packets] packets per round goes through the same
    stores, edges and metric series as the run with one packet per round,
    and delivers [packets] times as much; the run with one packet
    delivers at most one packet per node and round. *)
Theorem run_packets_scale {G : Geometry}
        (proto : protocol) (rng : nat -> randomness) (nodes : store)
        (rounds : nat) (packets : Z) (hard soft : Q) :
  let a := run_simulation proto rng nodes rounds packets hard soft in
  let b := run_simulation proto rng nodes rounds 1 hard soft in
  sim_nodes a = sim_nodes b
  /\ sim_paths a = sim_paths b
  /\ dead_history a = dead_history b
  /\ energy_history a = energy_history b
  /\ delivered_total a = (packets * delivered_total b)%Z
  /\ (0 <= delivered_total b <= Z.of_nat rounds * Z.of_nat (length nodes))%Z.
Proof.
  intros a b. subst a b. unfold run_simulation.
  destruct (sim_loop_packets proto rng packets hard soft rounds 0
              (mkSimulation nodes [] [] [] 0%Z)
              (mkSimulation nodes [] [] [] 0%Z))
    as [(H1 & H2 & H3 & H4 & H5) H6].
  { unfold same_but_packets; cbn. repeat split; lia. }
  cbn [delivered_total sim_nodes] in H6.
  repeat split; auto; lia.
Qed.

(** X9. Direct routing in closed form: every node is debited for its
    transmission to the base station (a dead node is left as it is), the
    edges go from the nodes that were alive and still are after their
    debit to the base station, in the order of the store, and [packets]
    are delivered for each of these nodes. *)
Theorem direct_routing_closed_form {G : Geometry}
        (nodes : store) (packets : Z) :
  let survivors :=
    filter (fun n => alive n && survives_own_debit 50 n) nodes in
  direct_routing nodes packets
  = (map (fun n => use_energy n (tx_to_base 50 n)) nodes,
     map (fun n => (pos n, BS_POS)) survivors,
     (packets * Z.of_nat (length survivors))%Z).
Proof.
  intros survivors. subst survivors. unfold direct_routing.
  rewrite (outcome_eta (direct_loop nodes packets [] 0%Z)).
  now rewrite direct_loop_nodes, direct_loop_paths, direct_loop_delivered.
Qed.

(** X10. A TEEN round delivers [packets] for each edge it returns; every
    edge ends at the base station, and there are at most as many edges as
    nodes alive after the round. *)
Theorem teen_edges_and_delivered {G : Geometry}
        (uniform : nat -> Q) (nodes : store) (packets : Z) (hard soft : Q) :
  let o := teen uniform nodes packets hard soft in
  delivered_of o = (packets * Z.of_nat (length (paths_of o)))%Z
  /\ Forall (fun e => snd e = BS_POS) (paths_of o)
  /\ (length (paths_of o) <= alive_count (nodes_of o))%nat.
Proof.
  intros o. subst o. unfold teen.
  destruct (teen_loop_shape nodes hard soft uniform 0)
    as (ns & extra & Hl & Hb & H).
  rewrite H. unfold delivered_of, paths_of, nodes_of, alive_count; cbn.
  repeat split; auto.
Qed.

(** ** Further properties: the thresholds of TEEN *)

Lemma teen_triggers_iff : forall sensed hard soft,
  teen_triggers sensed hard soft = true <-> hard <= sensed /\ soft <= sensed.
Proof.
  intros sensed hard soft. unfold teen_triggers.
  rewrite andb_true_iff, !Qle_bool_iff. split; intros [H1 H2]; split; lra.
Qed.

Section TeenThresholds.

Context {G : Geometry}.

Lemma teen_loop_ext :
  forall todo packets hard soft hard' soft' uniform k paths delivered,
  (forall j, teen_triggers (uniform j) hard soft
             = teen_triggers (uniform j) hard' soft') ->
  teen_loop todo packets hard soft uniform k paths delivered
  = teen_loop todo packets hard' soft' uniform k paths delivered.
Proof.
  induction todo as [|n rest IH];
    intros packets hard soft hard' soft' uniform k paths delivered H;
    cbn [teen_loop]; [reflexivity|].
  rewrite (H k).
  destruct (negb (alive n)); [now rewrite (IH _ _ _ hard' soft')|].
  destruct (teen_triggers (uniform k) hard' soft');
    [|now rewrite (IH _ _ _ hard' soft')].
  destruct (alive (use_energy n _)); now rewrite (IH _ _ _ hard' soft').
Qed.

Lemma teen_loop_no_trigger :
  forall todo packets hard soft uniform k paths delivered,
  (forall j, teen_triggers (uniform j) hard soft = false) ->
  teen_loop todo packets hard soft uniform k paths delivered
  = (todo, paths, delivered).
Proof.
  induction todo as [|n rest IH];
    intros packets hard soft uniform k paths delivered H;
    cbn [teen_loop]; [reflexivity|].
  rewrite (H k). destruct (negb (alive n)); now rewrite IH.
Qed.

End TeenThresholds.

(** X11. In a TEEN round only the larger of the two thresholds counts: a
    node transmits exactly when its sensed value reaches both, so the
    round is the round with both thresholds set to the larger one, and the
    round with the two thresholds exchanged. *)
Theorem teen_larger_threshold {G : Geometry}
        (uniform : nat -> Q) (nodes : store) (packets : Z) (hard soft : Q) :
  (forall sensed,
     teen_triggers sensed hard soft = Qle_bool (max2 hard soft) sensed)
  /\ teen uniform nodes packets hard soft
     = teen uniform nodes packets (max2 hard soft) (max2 hard soft)
  /\ teen uniform nodes packets hard soft
     = teen uniform nodes packets soft hard.
Proof.
  assert (Hmax : forall sensed,
            max2 hard soft <= sensed <-> hard <= sensed /\ soft <= sensed).
  { intros sensed. unfold max2.
    destruct (Qle_bool soft hard) eqn:E.
    - apply Qle_bool_iff in E. split; [intros; split; lra | tauto].
    - assert (hard < soft).
      { destruct (Qlt_le_dec hard soft) as [|Hle]; [assumption|].
        apply Qle_bool_iff in Hle. congruence. }
      split; [intros; split; lra | tauto]. }
  split; [|split].
  - intros sensed. apply eq_true_iff_eq.
    now rewrite teen_triggers_iff, Qle_bool_iff, Hmax.
  - unfold teen. apply teen_loop_ext. intros j. apply eq_true_iff_eq.
    rewrite !teen_triggers_iff, !Hmax. tauto.
  - unfold teen. apply teen_loop_ext. intros j. apply eq_true_iff_eq.
    rewrite !teen_triggers_iff. tauto.
Qed.

(** X12. A TEEN round in which every sensed value is below one of the
    thresholds changes nothing: it returns the store as it is, no edge and
    no delivered packet. *)
Theorem teen_round_without_trigger {G : Geometry}
        (uniform : nat -> Q) (nodes : store) (packets : Z) (hard soft : Q) :
  (forall k, uniform k < hard \/ uniform k < soft) ->
  teen uniform nodes packets hard soft = (nodes, [], 0%Z).
Proof.
  intros H. unfold teen. apply teen_loop_no_trigger. intros j.
  destruct (teen_triggers (uniform j) hard soft) eqn:E; [|reflexivity].
  apply teen_triggers_iff in E. destruct (H j); lra.
Qed.

Lemma teen_round_without_trigger_witness :
  let nodes := [mkNode 0 (50, 0)%Z INITIAL_ENERGY true;
                mkNode 1 (10, 80)%Z INITIAL_ENERGY true] in
  teen (G := grid) (fun _ => 42) nodes 3 50 5 = (nodes, [], 0%Z).
Proof.
  intros nodes.
  apply (teen_round_without_trigger (G := grid) (fun _ => 42) nodes 3 50 5).
  intros k. left. unfold Qlt; simpl; lia.
Defined.

(** ** Further properties: the chain of PEGASIS *)

Lemma insert_by_Permutation : forall key x l,
  Permutation (insert_by key x l) (x :: l).
Proof.
  induction l as [|y l IH]; simpl; [reflexivity|].
  destruct (key x <=? key y)%Z; [reflexivity|].
  rewrite IH. apply perm_swap.
Qed.

Lemma sorted_by_Permutation : forall key l, Permutation (sorted_by key l) l.
Proof.
  induction l as [|x l IH]; simpl; [reflexivity|].
  now rewrite insert_by_Permutation, IH.
Qed.

Lemma insert_by_Sorted : forall key x l,
  Sorted (fun a b => (key a <= key b)%Z) l ->
  Sorted (fun a b => (key a <= key b)%Z) (insert_by key x l).
Proof.
  induction l as [|y l IH]; intros H; simpl.
  - repeat constructor.
  - destruct (key x <=? key y)%Z eqn:E.
    + apply Z.leb_le in E. constructor; [exact H | now constructor].
    + apply Z.leb_gt in E. inversion H as [|? ? Hs Hh]; subst.
      constructor; [now apply IH|].
      destruct l as [|z l]; simpl.
      * constructor. lia.
      * inversion Hh; subst.
        destruct (key x <=? key z)%Z; constructor; lia.
Qed.

Lemma sorted_by_Sorted : forall key l,
  Sorted (fun a b => (key a <= key b)%Z) (sorted_by key l).
Proof.
  induction l as [|x l IH]; simpl; [constructor|].
  now apply insert_by_Sorted.
Qed.

Lemma insert_by_filter : forall key k x l,
  filter (fun i => (key i =? k)%Z) (insert_by key x l)
  = filter (fun i => (key i =? k)%Z) (x :: l).
Proof.
  induction l as [|y l IH]; [reflexivity|].
  cbn [insert_by]. destruct (key x <=? key y)%Z eqn:E; [reflexivity|].
  apply Z.leb_gt in E. cbn [filter] in *. rewrite IH.
  destruct (key x =? k)%Z eqn:Ex; [|reflexivity].
  apply Z.eqb_eq in Ex.
  assert (Ey : (key y =? k)%Z = false) by (apply Z.eqb_neq; lia).
  now rewrite Ey.
Qed.

Lemma sorted_by_filter : forall key k l,
  filter (fun i => (key i =? k)%Z) (sorted_by key l)
  = filter (fun i => (key i =? k)%Z) l.
Proof.
  induction l as [|x l IH]; [reflexivity|].
  cbn [sorted_by fold_right]. fold (sorted_by key l).
  rewrite insert_by_filter. cbn [filter]. now rewrite IH.
Qed.

Lemma chain_edges_last : forall p ps d,
  chain_edges (p :: ps)
  = combine (p :: ps) ps ++ [(last (p :: ps) d, BS_POS)].
Proof.
  unfold chain_edges. intros p ps. revert p.
  induction ps as [|q ps IH]; intros p d; [reflexivity|].
  specialize (IH q d). cbn [tl] in *.
  change (combine (p :: q :: ps) ((q :: ps) ++ [BS_POS]))
    with ((p, q) :: combine (q :: ps) (ps ++ [BS_POS])).
  rewrite IH. reflexivity.
Qed.

Lemma chain_edges_sources : forall ps, map fst (chain_edges ps) = ps.
Proof.
  unfold chain_edges. intros [|p ps]; [reflexivity|]. cbn [tl].
  revert p. induction ps as [|q ps IH]; intros p; [reflexivity|].
  cbn [app combine map fst]. f_equal. apply IH.
Qed.

Lemma chain_edges_length : forall ps, length (chain_edges ps) = length ps.
Proof.
  intros ps.
  pose proof (f_equal (@length position) (chain_edges_sources ps)) as H.
  now rewrite length_map in H.
Qed.

Lemma chain_edges_chained : forall ps, chained (chain_edges ps).
Proof.
  unfold chain_edges. intros [|p ps]; [exact I|]. cbn [tl].
  revert p. induction ps as [|q ps IH]; intros p; [exact I|].
  cbn [app combine]. specialize (IH q).
  destruct ps as [|r ps]; cbn [app combine] in *; split; auto.
Qed.

Lemma last_map_refs : forall (f : nat -> position) l d,
  last (map f l) (f d) = f (last l d).
Proof.
  induction l as [|x l IH]; intros d; [reflexivity|].
  destruct l as [|y l]; [reflexivity|].
  change (last (map f (x :: y :: l)) (f d)) with (last (map f (y :: l)) (f d)).
  now rewrite IH.
Qed.

Section PegasisFacts.

Context {G : Geometry}.

Lemma pegasis_loop_step : forall a b rest s paths,
  pegasis_loop (a :: b :: rest) s paths
  = pegasis_loop (b :: rest)
      (use_energy_at
         (use_energy_at s a
            (TX_COST * (distance (pos (get s a)) (pos (get s b)) / 70)))
         b (RX_COST * 0.4))
      (paths
       ++ [(pos (get (use_energy_at
                        (use_energy_at s a
                           (TX_COST * (distance (pos (get s a))
                                                (pos (get s b)) / 70)))
                        b (RX_COST * 0.4)) a),
            pos (get (use_energy_at
                        (use_energy_at s a
                           (TX_COST * (distance (pos (get s a))
                                                (pos (get s b)) / 70)))
                        b (RX_COST * 0.4)) b))]).
Proof. reflexivity. Qed.

Lemma pegasis_loop_paths : forall chain s0 s paths,
  debits s0 s ->
  snd (pegasis_loop chain s paths)
  = paths ++ combine (map (fun i => pos (get s0 i)) chain)
                     (tl (map (fun i => pos (get s0 i)) chain)).
Proof.
  induction chain as [|a rest IH]; intros s0 s paths H.
  - simpl. now rewrite app_nil_r.
  - destruct rest as [|b rest'].
    + simpl. now rewrite app_nil_r.
    + rewrite pegasis_loop_step.
      assert (H2 : debits s0
                (use_energy_at
                   (use_energy_at s a
                      (TX_COST * (distance (pos (get s a)) (pos (get s b)) / 70)))
                   b (RX_COST * 0.4))).
      { apply debits_step; [apply rx_amount_nonneg|].
        apply debits_step; [|exact H].
        apply tx_amount_nonneg; [apply distance_nonneg | lra]. }
      rewrite (IH s0 _ _ H2).
      rewrite !(debits_get_pos s0 _ _ H2), <- app_assoc. reflexivity.
Qed.

Lemma pegasis_paths : forall nodes packets,
  paths_of (pegasis nodes packets)
  = chain_edges (map (fun i => pos (get nodes i)) (chain_of nodes)).
Proof.
  intros nodes packets. unfold pegasis.
  pose proof (pegasis_loop_paths (chain_of nodes) nodes nodes []
                                 (debits_refl nodes)) as Hp.
  pose proof (pegasis_loop_debits (chain_of nodes) nodes nodes []
                                  (debits_refl nodes)) as Hd.
  destruct (pegasis_loop (chain_of nodes) nodes []) as [s paths].
  cbn [fst snd] in Hp, Hd. subst paths.
  destruct (chain_of nodes) as [|first others]; [reflexivity|].
  unfold paths_of; cbn [fst snd app].
  cbn [map]. rewrite (chain_edges_last _ _ (pos (get nodes first))).
  f_equal.
  assert (Hd' : debits nodes
            (use_energy_at s (last (first :: others) first)
               (TX_COST * (distance
                  (pos (get s (last (first :: others) first))) BS_POS / 60)))).
  { apply debits_step; [|exact Hd].
    apply tx_amount_nonneg; [apply distance_nonneg | lra]. }
  rewrite (debits_get_pos nodes _ _ Hd').
  change (pos (get nodes first) :: map (fun i => pos (get nodes i)) others)
    with (map (fun i => pos (get nodes i)) (first :: others)).
  now rewrite (last_map_refs (fun i => pos (get nodes i))).
Qed.

End PegasisFacts.

(** X13. The chain of a PEGASIS round holds every alive node once, in
    non-decreasing order of the x coordinate; nodes with the same x keep
    the order they have in the store. *)
Theorem pegasis_chain_sorted (nodes : store) :
  let x := fun i => fst (pos (get nodes i)) in
  let chain := chain_of nodes in
  Permutation (map (get nodes) chain) (filter alive nodes)
  /\ Sorted (fun a b => (x a <= x b)%Z) chain
  /\ forall k, filter (fun i => (x i =? k)%Z) chain
               = filter (fun i => (x i =? k)%Z) (alive_refs nodes).
Proof.
  intros x chain. subst x chain. unfold chain_of. split; [|split].
  - rewrite <- map_get_alive_refs.
    apply Permutation_map, sorted_by_Permutation.
  - apply sorted_by_Sorted.
  - intros k. apply sorted_by_filter.
Qed.

(** X14. The edges of a PEGASIS round follow the chain: one edge leaves
    from each alive node, to the next node of the chain and, from the last
    node, to the base station; each edge starts where the edge before it
    ends. *)
Theorem pegasis_edges_follow_chain {G : Geometry}
        (nodes : store) (packets : Z) :
  let stops := map (fun i => pos (get nodes i)) (chain_of nodes) in
  let paths := paths_of (pegasis nodes packets) in
  paths = combine stops (tl stops ++ [BS_POS])
  /\ map fst paths = stops
  /\ length paths = alive_count nodes
  /\ chained paths.
Proof.
  intros stops paths. subst stops paths. rewrite pegasis_paths.
  split; [reflexivity|]. split; [apply chain_edges_sources|]. split.
  - rewrite chain_edges_length, length_map.
    unfold chain_of, alive_count.
    now rewrite (Permutation_length (sorted_by_Permutation _ _)),
      alive_refs_length.
  - apply chain_edges_chained.
Qed.

(** ** Further properties: the clusters of LEACH *)

Lemma min_by_first_minimal : forall (A : Type) (key : A -> Q) xs best,
  exists before after,
    best :: xs = before ++ min_by key best xs :: after
    /\ Forall (fun x => key (min_by key best xs) < key x) before
    /\ Forall (fun x => key (min_by key best xs) <= key x) after.
Proof.
  induction xs as [|x rest IH]; intros best.
  - exists [], []. repeat split; constructor.
  - cbn [min_by].
    destruct (Qle_bool (key best) (key x)) eqn:E.
    + apply Qle_bool_iff in E.
      destruct (IH best) as (l1 & l2 & Hs & H1 & H2).
      destruct l1 as [|b l1]; simpl in Hs; injection Hs as Hb Hr.
      * exists [], (x :: rest). rewrite <- Hb in H2 |- *. subst l2.
        split; [reflexivity|]. split; [constructor|].
        constructor; [exact E | exact H2].
      * subst b. exists (best :: x :: l1), l2.
        split; [simpl; do 2 f_equal; exact Hr|]. split; [|exact H2].
        inversion H1 as [|? ? Hlt Hl1]; subst.
        constructor; [exact Hlt|]. constructor; [lra | exact Hl1].
    + assert (Hlt : key x < key best).
      { destruct (Qlt_le_dec (key x) (key best)) as [|Hle]; [assumption|].
        apply Qle_bool_iff in Hle. congruence. }
      destruct (IH x) as (l1 & l2 & Hs & H1 & H2).
      exists (best :: l1), l2. split; [simpl; f_equal; exact Hs|].
      split; [|exact H2]. constructor; [|exact H1].
      destruct l1 as [|b l1]; simpl in Hs; injection Hs as Hb Hr.
      * now rewrite <- Hb.
      * subst b. inversion H1; subst. lra.
Qed.

(** X15. The head that a LEACH member joins is the nearest of the cluster
    heads, and the first of the nearest ones: the heads listed before it
    are farther from the member, the heads listed after it are not
    nearer. *)
Theorem nearest_head_is_nearest {G : Geometry}
        (s : store) (cluster_heads : list nat) (i : nat) :
  cluster_heads <> [] ->
  let far := fun c => distance (pos (get s c)) (pos (get s i)) in
  let ch := nearest_head s cluster_heads i in
  exists before after,
    cluster_heads = before ++ ch :: after
    /\ Forall (fun c => far ch < far c) before
    /\ Forall (fun c => far ch <= far c) after.
Proof.
  intros H far ch. subst far ch. unfold nearest_head.
  destruct cluster_heads as [|c cs]; [congruence|].
  apply (min_by_first_minimal nat
           (fun c => distance (pos (get s c)) (pos (get s i)))).
Qed.

Lemma nearest_head_is_nearest_witness :
  let s := [mkNode 0 (0, 0)%Z INITIAL_ENERGY true;
            mkNode 1 (0, 30)%Z INITIAL_ENERGY true;
            mkNode 2 (40, 0)%Z INITIAL_ENERGY true;
            mkNode 3 (0, 50)%Z INITIAL_ENERGY true] in
  let far := fun c => distance (Geometry := grid) (pos (get s c)) (pos (get s 0)) in
  let ch := nearest_head (G := grid) s [2; 1; 3]%nat 0 in
  exists before after,
    [2; 1; 3]%nat = before ++ ch :: after
    /\ Forall (fun c => far ch < far c) before
    /\ Forall (fun c => far ch <= far c) after.
Proof.
  intros s.
  apply (nearest_head_is_nearest (G := grid) s [2; 1; 3]%nat 0).
  discriminate.
Defined.

(** X16. The edges of a LEACH round on a store of nodes with distinct
    ids: one edge for each node alive at the start, in the order of the
    store, from the node to the base station when the node is a cluster
    head and to its nearest cluster head otherwise. *)
Theorem leach_edges {G : Geometry}
        (draw : nat -> nat) (nodes : store) (packets : Z) :
  NoDup (map id nodes) ->
  let cluster_heads := cluster_heads_of draw (alive_refs nodes) in
  paths_of (leach draw nodes packets)
  = map (fun i =>
           (pos (get nodes i),
            if is_head cluster_heads i then BS_POS
            else pos (get nodes (nearest_head nodes cluster_heads i))))
        (alive_refs nodes).
Proof.
  intros Hnd heads. subst heads. unfold leach.
  destruct (alive_refs nodes) as [|i0 rest] eqn:E; [reflexivity|].
  rewrite <- E.
  assert (Ha : alive_refs nodes <> []) by (rewrite E; discriminate).
  destruct (cluster_heads_facts draw nodes Ha) as (_ & _ & Hincl).
  rewrite (leach_loop_paths _ _ _ nodes); auto using debits_refl.
  - intros c Hc. apply Hincl in Hc. now apply alive_refs_In in Hc.
  - intros j Hj. now apply alive_refs_In in Hj.
Qed.

Lemma leach_edges_witness :
  let nodes := [mkNode 0 (50, 0)%Z INITIAL_ENERGY true;
                mkNode 1 (50, 40)%Z 0 false;
                mkNode 2 (50, 100)%Z INITIAL_ENERGY true] in
  let cluster_heads := cluster_heads_of (fun _ => 1%nat) (alive_refs nodes) in
  paths_of (leach (G := grid) (fun _ => 1%nat) nodes 3)
  = map (fun i =>
           (pos (get nodes i),
            if is_head cluster_heads i then BS_POS
            else pos (get nodes
                        (nearest_head (G := grid) nodes cluster_heads i))))
        (alive_refs nodes).
Proof.
  intros nodes.
  apply (leach_edges (G := grid) (fun _ => 1%nat) nodes 3).
  vm_compute. repeat constructor; simpl; intuition discriminate.
Defined.

(** ** Further properties: the comparison *)

Lemma alive_dead_count : forall s,
  (alive_count s + dead_count s = length s)%nat.
Proof.
  unfold alive_count, dead_count.
  induction s as [|n s IH]; simpl; [reflexivity|].
  destruct (alive n); simpl; lia.
Qed.

Section ComparisonFacts.

Context {G : Geometry}.

Lemma compare_loop_sim_loop : forall proto rng packets hard soft rounds r st,
  In proto compared_protocols ->
  compare_loop proto rng packets r rounds (sim_nodes st) (delivered_total st)
  = (sim_nodes (sim_loop proto rng packets hard soft r rounds st),
     delivered_total (sim_loop proto rng packets hard soft r rounds st)).
Proof.
  induction rounds as [|rounds IH]; intros r st Hin; cbn [compare_loop sim_loop].
  - reflexivity.
  - assert (E : compare_round proto (rng r) (sim_nodes st) packets
                = run_round proto (rng r) (sim_nodes st) packets hard soft).
    { destruct proto; try reflexivity.
      simpl in Hin. intuition discriminate. }
    rewrite E, <- (IH (S r) _ Hin). unfold sim_step.
    now destruct (run_round proto (rng r) (sim_nodes st) packets hard soft)
      as [[ns p] d].
Qed.

End ComparisonFacts.

(** X17. The comparison runs Direct, LEACH and PEGASIS, in this order and
    never TEEN, each on nodes created for it; the entry of a protocol
    holds what a single run of the protocol on the same nodes with the
    same draws gives: its delivered total, and as alive count the number
    of nodes less the final dead count. *)
Theorem run_comparison_agrees {G : Geometry}
        (draws : protocol -> nat -> nat) (rng : protocol -> nat -> randomness)
        (num_nodes rounds : nat) (packets : Z) (hard soft : Q) :
  let run := fun proto =>
    run_simulation proto (rng proto) (create_nodes (draws proto) num_nodes)
                   rounds packets hard soft in
  run_comparison draws rng num_nodes rounds packets
  = map (fun proto =>
           (proto,
            mkComparison (num_nodes - dead_count (sim_nodes (run proto)))
                         (delivered_total (run proto))))
        [Direct; LEACH; PEGASIS].
Proof.
  intros run. subst run. unfold run_comparison.
  apply map_ext_in. intros proto Hin. f_equal.
  unfold compare_protocol, run_simulation.
  pose proof (compare_loop_sim_loop proto (rng proto) packets hard soft rounds 0
                (mkSimulation (create_nodes (draws proto) num_nodes) [] [] [] 0%Z)
                Hin) as H.
  cbn [sim_nodes delivered_total] in H. rewrite H. f_equal.
  pose proof (alive_dead_count
                (sim_nodes (sim_loop proto (rng proto) packets hard soft 0 rounds
                   (mkSimulation (create_nodes (draws proto) num_nodes)
                                 [] [] [] 0%Z)))) as Hc.
  rewrite sim_loop_length in Hc. cbn [sim_nodes] in Hc.
  unfold create_nodes in Hc at 3. rewrite length_map, length_seq in Hc.
  unfold alive_count in Hc. lia.
Qed.

(** ** Further properties: the nodes of a Direct run *)

Section DirectRuns.

Context {G : Geometry}.

Lemma iter_debit_pos : forall amount r n,
  pos (Nat.iter r (fun m => use_energy m amount) n) = pos n.
Proof.
  induction r as [|r IH]; intros n; [reflexivity|].
  rewrite Nat.iter_succ, use_energy_pos. apply IH.
Qed.

Lemma direct_run_nodes : forall rng packets hard soft rounds nodes,
  sim_nodes (run_simulation Direct rng nodes rounds packets hard soft)
  = map (fun n => Nat.iter rounds (fun m => use_energy m (tx_to_base 50 n)) n)
        nodes.
Proof.
  unfold run_simulation. induction rounds as [|rounds IH]; intros nodes.
  - simpl. now rewrite map_id.
  - rewrite sim_loop_succ, sim_step_nodes, IH. cbn [run_round].
    unfold direct_routing. rewrite direct_loop_nodes, map_map.
    apply map_ext. intros n. rewrite Nat.iter_succ. f_equal.
    unfold tx_to_base. now rewrite iter_debit_pos.
Qed.

End DirectRuns.

(** X18. Under Direct the nodes do not act on one another, and neither
    the random draws nor [packets] act on them: after any number of
    rounds each node is what that many debits of its own amount, the
    same in every round, leave of it, which is what a run on this node
    alone leaves of it. *)
Theorem direct_nodes_independent {G : Geometry}
        (rng rng' : nat -> randomness) (nodes : store)
        (rounds : nat) (packets packets' : Z) (hard soft hard' soft' : Q) :
  let after :=
    sim_nodes (run_simulation Direct rng nodes rounds packets hard soft) in
  after
  = map (fun n => Nat.iter rounds (fun m => use_energy m (tx_to_base 50 n)) n)
        nodes
  /\ after
     = flat_map (fun n =>
                   sim_nodes (run_simulation Direct rng' [n] rounds
                                             packets' hard' soft'))
                nodes.
Proof.
  intros after. subst after. rewrite direct_run_nodes. split; [reflexivity|].
  induction nodes as [|n s IH]; [reflexivity|].
  cbn [map flat_map]. rewrite direct_run_nodes. cbn [map app].
  now rewrite IH.
Qed.
